(** * Inventory views of lib/dockerregistry (package [inventory])

    A shallow embedding of the view conversions of [types.go]:
    [Manifest.ToRegInvImageDigest], [Manifest.ToRegInvImageTag],
    [RegInvImage.ToRegInvImageDigest], [RegInvImage.ToRegInvImageTag] and
    [RegInvImageDigest.ToRegInvImageTag].

    Go maps are finite maps ([gmap]); Go slices are lists; a nil map or
    slice is the empty one, as it is for [range].  A [range] over
    a Go map visits every entry once, in an order the language leaves
    unspecified and that may change from one loop to the next, so every
    conversion takes the order in which its [range] statements visit the
    keys as an explicit argument. *)

From stdpp Require Import gmap strings list fin_maps.

(* stdpp's solvers clear hypotheses that are not always there. *)
#[global] Set Warnings "-clear-no-such-hyp".

Open Scope string_scope.

(** ** Data model *)

(* type RegistryName string; type ImageName string;
   type Digest string; type Tag string *)
Abbreviation RegistryName := string.
Abbreviation ImageName := string.
Abbreviation Digest := string.
Abbreviation Tag := string.

(* type TagSlice []Tag *)
Abbreviation TagSlice := (list Tag).

(* type ImageTag struct { ImageName ImageName; Tag Tag } *)
Record ImageTag := mkImageTag {
  ImageTag_ImageName : ImageName;
  ImageTag_Tag : Tag
}.

(* type ImageDigest struct { ImageName ImageName; Digest Digest } *)
Record ImageDigest := mkImageDigest {
  ImageDigest_ImageName : ImageName;
  ImageDigest_Digest : Digest
}.

#[global] Instance ImageTag_eq_dec : EqDecision ImageTag.
Proof. solve_decision. Defined.

#[global] Instance ImageDigest_eq_dec : EqDecision ImageDigest.
Proof. solve_decision. Defined.

#[global] Instance ImageTag_countable : Countable ImageTag.
Proof.
  refine (inj_countable' (λ it, (ImageTag_ImageName it, ImageTag_Tag it))
                         (λ p, mkImageTag p.1 p.2) _).
  by intros [].
Defined.

#[global] Instance ImageDigest_countable : Countable ImageDigest.
Proof.
  refine (inj_countable' (λ id, (ImageDigest_ImageName id, ImageDigest_Digest id))
                         (λ p, mkImageDigest p.1 p.2) _).
  by intros [].
Defined.

(* type DigestTags map[Digest]TagSlice *)
Abbreviation DigestTags := (gmap Digest TagSlice).
(* type RegInvImage map[ImageName]DigestTags *)
Abbreviation RegInvImage := (gmap ImageName DigestTags).
(* type RegInvImageDigest map[ImageDigest]TagSlice *)
Abbreviation RegInvImageDigest := (gmap ImageDigest TagSlice).
(* type RegInvImageTag map[ImageTag]Digest *)
Abbreviation RegInvImageTag := (gmap ImageTag Digest).

(* type RegistryNames struct { Src RegistryName; Dest RegistryName } *)
Record RegistryNames := mkRegistryNames {
  Src : RegistryName;
  Dest : RegistryName
}.

(* type Image struct { ImageName ImageName; Dmap DigestTags } *)
Record Image := mkImage {
  Image_ImageName : ImageName;
  Dmap : DigestTags
}.

(* type Manifest struct { Registries; ServiceAccount; Images []Image } *)
Record Manifest := mkManifest {
  Registries : RegistryNames;
  ServiceAccount : string;
  Images : list Image
}.

(** ** Iteration over Go maps *)

(** [range m ks] is the sequence of entries a [for k, v := range m] loop
    visits when it meets the keys in the order [ks]. *)
Definition range `{Countable K} {V} (m : gmap K V) (ks : list K) : list (K * V) :=
  omap (λ k, (λ v, (k, v)) <$> m !! k) ks.

(** The orders Go may pick: every key of the map, once. *)
Definition key_order `{Countable K} {V} (m : gmap K V) (ks : list K) : Prop :=
  ks ≡ₚ (map_to_list m).*1.

#[global] Instance key_order_dec `{Countable K} {V} (m : gmap K V) (ks : list K) :
  Decision (key_order m ks).
Proof. unfold key_order. apply _. Defined.

(** The order in which stdpp happens to list the keys; one of the orders
    allowed. *)
Definition keys `{Countable K} {V} (m : gmap K V) : list K := (map_to_list m).*1.

(** ** The conversions *)

(** The orders of one run over a [Manifest]: for each element of
    [m.Images], the order of the inner [range image.Dmap]. *)
Definition ManifestOrder := list (list Digest).

Definition Manifest_order (m : Manifest) (o : ManifestOrder) : Prop :=
  Forall2 (λ image ds, key_order (Dmap image) ds) (Images m) o.

(** The orders of one run over a [RegInvImage]: the image names in the
    order of the outer [range ri], each with the order of the inner
    [range digestTags]. *)
Definition RegInvImageOrder := list (ImageName * list Digest).

Definition RegInvImage_order (ri : RegInvImage) (o : RegInvImageOrder) : Prop :=
  key_order ri o.*1 ∧
  Forall (λ p, key_order (default ∅ (ri !! p.1)) p.2) o.

Definition RegInvImageDigest_order (riid : RegInvImageDigest) (o : list ImageDigest) : Prop :=
  key_order riid o.

#[global] Instance Manifest_order_dec m o : Decision (Manifest_order m o).
Proof. unfold Manifest_order. apply _. Defined.

#[global] Instance RegInvImage_order_dec ri o : Decision (RegInvImage_order ri o).
Proof. unfold RegInvImage_order. apply _. Defined.

#[global] Instance RegInvImageDigest_order_dec riid o :
  Decision (RegInvImageDigest_order riid o).
Proof. unfold RegInvImageDigest_order. apply _. Defined.

(* func (m Manifest) ToRegInvImageDigest() RegInvImageDigest *)
Definition Manifest_ToRegInvImageDigest (m : Manifest) (o : ManifestOrder)
  : RegInvImageDigest :=
  foldl (λ riid '(image, ds),
      foldl (λ riid '(digest, tagArray),
          <[ mkImageDigest (Image_ImageName image) digest := tagArray ]> riid)
        riid (range (Dmap image) ds))
    ∅ (zip (Images m) o).

(* func (m Manifest) ToRegInvImageTag() RegInvImageTag *)
Definition Manifest_ToRegInvImageTag (m : Manifest) (o : ManifestOrder)
  : RegInvImageTag :=
  foldl (λ riit '(image, ds),
      foldl (λ riit '(digest, tagArray),
          foldl (λ riit tag,
              <[ mkImageTag (Image_ImageName image) tag := digest ]> riit)
            riit tagArray)
        riit (range (Dmap image) ds))
    ∅ (zip (Images m) o).

(* func (ri RegInvImage) ToRegInvImageDigest() RegInvImageDigest *)
Definition RegInvImage_ToRegInvImageDigest (ri : RegInvImage) (o : RegInvImageOrder)
  : RegInvImageDigest :=
  foldl (λ riid '(imageName, ds),
      foldl (λ riid '(digest, tagArray),
          <[ mkImageDigest imageName digest := tagArray ]> riid)
        riid (range (default ∅ (ri !! imageName)) ds))
    ∅ o.

(* func (ri RegInvImage) ToRegInvImageTag() RegInvImageTag *)
Definition RegInvImage_ToRegInvImageTag (ri : RegInvImage) (o : RegInvImageOrder)
  : RegInvImageTag :=
  foldl (λ riit '(imageName, ds),
      foldl (λ riit '(digest, tagArray),
          foldl (λ riit tag, <[ mkImageTag imageName tag := digest ]> riit)
            riit tagArray)
        riit (range (default ∅ (ri !! imageName)) ds))
    ∅ o.

(* func (riid RegInvImageDigest) ToRegInvImageTag() RegInvImageTag *)
Definition RegInvImageDigest_ToRegInvImageTag (riid : RegInvImageDigest)
    (o : list ImageDigest) : RegInvImageTag :=
  foldl (λ riit '(imageDigest, tagArray),
      foldl (λ riit tag,
          <[ mkImageTag (ImageDigest_ImageName imageDigest) tag
               := ImageDigest_Digest imageDigest ]> riit)
        riit tagArray)
    ∅ (range riid o).

(** The canonical orders, to run the conversions on concrete inputs. *)
Definition Manifest_keys (m : Manifest) : ManifestOrder :=
  (λ image, keys (Dmap image)) <$> Images m.

Definition RegInvImage_keys (ri : RegInvImage) : RegInvImageOrder :=
  (λ p, (p.1, keys p.2)) <$> map_to_list ri.

(** ** Sequences of map assignments *)

(** [m[k] = v] for each [(k, v)] of [l], first to last. *)
Definition assign_all `{Countable K} {V} (m : gmap K V) (l : list (K * V))
  : gmap K V :=
  foldl (λ m p, <[p.1 := p.2]> m) m l.

(** The assignments of [l] agree: a key is always given the same value. *)
Definition agreeing {K V} (l : list (K * V)) : Prop :=
  ∀ k v v', (k, v) ∈ l → (k, v') ∈ l → v = v'.

(** ** The assignments a conversion performs *)

(** What the source structures hold: image [i] lists digest [d] with the
    tag slice [ts]. *)
Definition RegInvImage_has (ri : RegInvImage) (i : ImageName) (d : Digest)
    (ts : TagSlice) : Prop :=
  ∃ digestTags, ri !! i = Some digestTags ∧ digestTags !! d = Some ts.

Definition Manifest_has (m : Manifest) (i : ImageName) (d : Digest)
    (ts : TagSlice) : Prop :=
  ∃ image, image ∈ Images m ∧ Image_ImageName image = i ∧ Dmap image !! d = Some ts.

Definition RegInvImageDigest_has (riid : RegInvImageDigest) (i : ImageName)
    (d : Digest) (ts : TagSlice) : Prop :=
  riid !! mkImageDigest i d = Some ts.

(** The assignments [riid[id] = tagArray] of the loop over one image. *)
Definition digest_writes (imageName : ImageName) (entries : list (Digest * TagSlice))
  : list (ImageDigest * TagSlice) :=
  (λ e, (mkImageDigest imageName e.1, e.2)) <$> entries.

(** The assignments [riit[it] = digest] of the loops over one image. *)
Definition tag_writes (imageName : ImageName) (entries : list (Digest * TagSlice))
  : list (ImageTag * Digest) :=
  entries ≫= (λ e, (λ tag, (mkImageTag imageName tag, e.1)) <$> e.2).

Definition Manifest_digest_writes (m : Manifest) (o : ManifestOrder) :=
  zip (Images m) o ≫=
    (λ p, digest_writes (Image_ImageName p.1) (range (Dmap p.1) p.2)).

Definition Manifest_tag_writes (m : Manifest) (o : ManifestOrder) :=
  zip (Images m) o ≫=
    (λ p, tag_writes (Image_ImageName p.1) (range (Dmap p.1) p.2)).

Definition RegInvImage_digest_writes (ri : RegInvImage) (o : RegInvImageOrder) :=
  o ≫= (λ p, digest_writes p.1 (range (default ∅ (ri !! p.1)) p.2)).

Definition RegInvImage_tag_writes (ri : RegInvImage) (o : RegInvImageOrder) :=
  o ≫= (λ p, tag_writes p.1 (range (default ∅ (ri !! p.1)) p.2)).

Definition RegInvImageDigest_tag_writes (riid : RegInvImageDigest)
    (o : list ImageDigest) :=
  range riid o ≫=
    (λ e, (λ tag, (mkImageTag (ImageDigest_ImageName e.1) tag,
                   ImageDigest_Digest e.1)) <$> e.2).

(** A digest claims the key (i, t) in the source when it lists tag [t]
    for image [i]. *)
Definition RegInvImage_claims (ri : RegInvImage) (it : ImageTag) (d : Digest) : Prop :=
  ∃ ts, RegInvImage_has ri (ImageTag_ImageName it) d ts ∧ ImageTag_Tag it ∈ ts.

Definition Manifest_claims (m : Manifest) (it : ImageTag) (d : Digest) : Prop :=
  ∃ ts, Manifest_has m (ImageTag_ImageName it) d ts ∧ ImageTag_Tag it ∈ ts.

Definition RegInvImageDigest_claims (riid : RegInvImageDigest) (it : ImageTag)
    (d : Digest) : Prop :=
  ∃ ts, RegInvImageDigest_has riid (ImageTag_ImageName it) d ts
        ∧ ImageTag_Tag it ∈ ts.

(** ** Well-formed sources *)

(** The invariant of [DigestTags]: a tag is listed under at most one
    digest. *)
Definition DigestTags_tags_unique (digestTags : DigestTags) : Prop :=
  map_Forall (λ d1 ts1,
    map_Forall (λ d2 ts2, Forall (λ t, t ∈ ts2 → d1 = d2) ts1) digestTags)
  digestTags.

Definition RegInvImage_tags_unique (ri : RegInvImage) : Prop :=
  map_Forall (λ _ digestTags, DigestTags_tags_unique digestTags) ri.

Definition Manifest_tags_unique (m : Manifest) : Prop :=
  Forall (λ image, DigestTags_tags_unique (Dmap image)) (Images m).

(** The [Images] of a manifest have pairwise-distinct names. *)
Definition Manifest_names_distinct (m : Manifest) : Prop :=
  NoDup (Image_ImageName <$> Images m).

(** Every image of the inventory has at least one digest. *)
Definition RegInvImage_images_nonempty (ri : RegInvImage) : Prop :=
  map_Forall (λ _ digestTags, digestTags ≠ ∅) ri.

#[global] Instance DigestTags_tags_unique_dec dt : Decision (DigestTags_tags_unique dt).
Proof. unfold DigestTags_tags_unique. apply _. Defined.

#[global] Instance RegInvImage_tags_unique_dec ri : Decision (RegInvImage_tags_unique ri).
Proof. unfold RegInvImage_tags_unique. apply _. Defined.

#[global] Instance Manifest_tags_unique_dec m : Decision (Manifest_tags_unique m).
Proof. unfold Manifest_tags_unique. apply _. Defined.

#[global] Instance Manifest_names_distinct_dec m : Decision (Manifest_names_distinct m).
Proof. unfold Manifest_names_distinct. apply _. Defined.

#[global] Instance RegInvImage_images_nonempty_dec ri :
  Decision (RegInvImage_images_nonempty ri).
Proof. unfold RegInvImage_images_nonempty. apply _. Defined.

(** The inventory that maps each image name of the manifest to its
    [Dmap] (the comparison the spec draws between desired and actual
    state; no function of the source builds it). *)
Definition Manifest_as_RegInvImage (m : Manifest) : RegInvImage :=
  list_to_map ((λ image, (Image_ImageName image, Dmap image)) <$> Images m).

(** At most one digest per [ImageTag] key. *)
Definition one_digest_per_tag (riit : RegInvImageTag) : Prop :=
  ∀ it d1 d2, riit !! it = Some d1 → riit !! it = Some d2 → d1 = d2.

(** ** The conversions on a heap

    Go maps and slices are references: a map value is the address of a
    map object, a slice value the address of its backing array, and the
    views that [ToRegInvImageDigest] returns hold the very tag slices of
    the source.  The conversions are modelled a second time, over a heap
    of such objects, to state what they write. *)

Module Heap.

Abbreviation loc := positive.

(* type Image struct { ImageName ImageName; Dmap DigestTags } *)
Record Image := mkImage {
  Image_ImageName : ImageName;
  Dmap : loc
}.

(* type Manifest struct { Registries; ServiceAccount; Images []Image } *)
Record Manifest := mkManifest {
  Registries : RegistryNames;
  ServiceAccount : string;
  Images : loc
}.

Inductive object :=
| TagArray (tags : list Tag)                        (* []Tag *)
| ImageArray (images : list Image)                  (* []Image *)
| DigestTagsMap (m : gmap Digest loc)               (* DigestTags *)
| RegInvImageMap (m : gmap ImageName loc)           (* RegInvImage *)
| RegInvImageDigestMap (m : gmap ImageDigest loc)   (* RegInvImageDigest *)
| RegInvImageTagMap (m : gmap ImageTag Digest).     (* RegInvImageTag *)

Abbreviation heap := (gmap loc object).

(** Computations on the heap; [None] is a run-time panic. *)
Definition M (A : Type) : Type := heap → option (A * heap).

#[global] Instance M_ret : MRet M := λ A a h, Some (a, h).
#[global] Instance M_bind : MBind M := λ A B f c h,
  match c h with
  | Some (a, h') => f a h'
  | None => None
  end.

(** The loop [for _, x := range l { body }] over a slice. *)
Definition for_each {A} (l : list A) (body : A → M unit) : M unit :=
  foldr (λ x k, body x ;; k) (mret tt) l.

(** What the heap holds at an address, by type.  An address that
    holds no object of the type is the nil map or slice, which a
    [range] walks as the empty one. *)
Definition TagSlice_at (h : heap) (l : loc) : list Tag :=
  match h !! l with Some (TagArray tags) => tags | _ => [] end.

Definition Images_at (h : heap) (l : loc) : list Image :=
  match h !! l with Some (ImageArray images) => images | _ => [] end.

Definition DigestTags_at (h : heap) (l : loc) : gmap Digest loc :=
  match h !! l with Some (DigestTagsMap m) => m | _ => ∅ end.

Definition RegInvImage_at (h : heap) (l : loc) : gmap ImageName loc :=
  match h !! l with Some (RegInvImageMap m) => m | _ => ∅ end.

Definition RegInvImageDigest_at (h : heap) (l : loc) : gmap ImageDigest loc :=
  match h !! l with Some (RegInvImageDigestMap m) => m | _ => ∅ end.

Definition RegInvImageTag_at (h : heap) (l : loc) : gmap ImageTag Digest :=
  match h !! l with Some (RegInvImageTagMap m) => m | _ => ∅ end.

(** Reading leaves the heap as it is. *)
Definition read {A} (at_ : heap → loc → A) (l : loc) : M A :=
  λ h, Some (at_ h l, h).

(** [make(RegInvImageDigest)] and [make(RegInvImageTag)]: a new, empty
    map object at an address not in use. *)
Definition make_RegInvImageDigest : M loc := λ h,
  let r := fresh (dom h) in Some (r, <[r := RegInvImageDigestMap ∅]> h).

Definition make_RegInvImageTag : M loc := λ h,
  let r := fresh (dom h) in Some (r, <[r := RegInvImageTagMap ∅]> h).

(** [riid[id] = tagArray]; assignment to a nil map panics. *)
Definition assign_RegInvImageDigest (riid : loc) (id : ImageDigest)
    (tagArray : loc) : M unit := λ h,
  match h !! riid with
  | Some (RegInvImageDigestMap m) =>
      Some (tt, <[riid := RegInvImageDigestMap (<[id := tagArray]> m)]> h)
  | _ => None
  end.

(** [riit[it] = digest] *)
Definition assign_RegInvImageTag (riit : loc) (it : ImageTag)
    (digest : Digest) : M unit := λ h,
  match h !! riit with
  | Some (RegInvImageTagMap m) =>
      Some (tt, <[riit := RegInvImageTagMap (<[it := digest]> m)]> h)
  | _ => None
  end.

(* func (m Manifest) ToRegInvImageDigest() RegInvImageDigest *)
Definition Manifest_ToRegInvImageDigest (m : Manifest) (o : ManifestOrder)
  : M loc :=
  riid ← make_RegInvImageDigest;
  images ← read Images_at (Images m);
  for_each (zip images o) (λ '(image, ds),
    dmap ← read DigestTags_at (Dmap image);
    for_each (range dmap ds) (λ '(digest, tagArray),
      assign_RegInvImageDigest riid
        (mkImageDigest (Image_ImageName image) digest) tagArray)) ;;
  mret riid.

(* func (m Manifest) ToRegInvImageTag() RegInvImageTag *)
Definition Manifest_ToRegInvImageTag (m : Manifest) (o : ManifestOrder)
  : M loc :=
  riit ← make_RegInvImageTag;
  images ← read Images_at (Images m);
  for_each (zip images o) (λ '(image, ds),
    dmap ← read DigestTags_at (Dmap image);
    for_each (range dmap ds) (λ '(digest, tagArray),
      tags ← read TagSlice_at tagArray;
      for_each tags (λ tag,
        assign_RegInvImageTag riit
          (mkImageTag (Image_ImageName image) tag) digest))) ;;
  mret riit.

(* func (ri RegInvImage) ToRegInvImageDigest() RegInvImageDigest *)
Definition RegInvImage_ToRegInvImageDigest (ri : loc) (o : RegInvImageOrder)
  : M loc :=
  riid ← make_RegInvImageDigest;
  images ← read RegInvImage_at ri;
  for_each o (λ '(imageName, ds),
    match images !! imageName with
    | None => mret tt
    | Some l =>
        digestTags ← read DigestTags_at l;
        for_each (range digestTags ds) (λ '(digest, tagArray),
          assign_RegInvImageDigest riid (mkImageDigest imageName digest)
            tagArray)
    end) ;;
  mret riid.

(* func (ri RegInvImage) ToRegInvImageTag() RegInvImageTag *)
Definition RegInvImage_ToRegInvImageTag (ri : loc) (o : RegInvImageOrder)
  : M loc :=
  riit ← make_RegInvImageTag;
  images ← read RegInvImage_at ri;
  for_each o (λ '(imageName, ds),
    match images !! imageName with
    | None => mret tt
    | Some l =>
        digestTags ← read DigestTags_at l;
        for_each (range digestTags ds) (λ '(digest, tagArray),
          tags ← read TagSlice_at tagArray;
          for_each tags (λ tag,
            assign_RegInvImageTag riit (mkImageTag imageName tag) digest))
    end) ;;
  mret riit.

(* func (riid RegInvImageDigest) ToRegInvImageTag() RegInvImageTag *)
Definition RegInvImageDigest_ToRegInvImageTag (riid : loc)
    (o : list ImageDigest) : M loc :=
  riit ← make_RegInvImageTag;
  entries ← read RegInvImageDigest_at riid;
  for_each (range entries o) (λ '(imageDigest, tagArray),
    tags ← read TagSlice_at tagArray;
    for_each tags (λ tag,
      assign_RegInvImageTag riit
        (mkImageTag (ImageDigest_ImageName imageDigest) tag)
        (ImageDigest_Digest imageDigest))) ;;
  mret riit.

(** Every object of [h] is in [h'] as it was. *)
Definition unchanged (h h' : heap) : Prop :=
  ∀ l obj, h !! l = Some obj → h' !! l = Some obj.

(** A call that returns, leaves every object of the heap as it was and
    adds one object: the one it returns, at an address not in use. *)
Definition pure (c : M loc) : Prop :=
  ∀ h, ∃ r h',
    c h = Some (r, h') ∧ unchanged h h' ∧ (r ∉ dom h) ∧ dom h' = dom h ∪ {[r]}.

(** The values the heap stands for. *)
Definition abs_DigestTags (h : heap) (l : loc) : DigestTags :=
  TagSlice_at h <$> DigestTags_at h l.

Definition abs_RegInvImage (h : heap) (l : loc) : RegInvImage :=
  abs_DigestTags h <$> RegInvImage_at h l.

Definition abs_RegInvImageDigest (h : heap) (l : loc) : RegInvImageDigest :=
  TagSlice_at h <$> RegInvImageDigest_at h l.

End Heap.

Definition abs_Image (h : Heap.heap) (image : Heap.Image) : Image :=
  mkImage (Heap.Image_ImageName image) (Heap.abs_DigestTags h (Heap.Dmap image)).

Definition abs_Manifest (h : Heap.heap) (m : Heap.Manifest) : Manifest :=
  mkManifest (Heap.Registries m) (Heap.ServiceAccount m)
    (abs_Image h <$> Heap.Images_at h (Heap.Images m)).

(** The objects the conversions make. *)
Definition result_object (obj : Heap.object) : Prop :=
  match obj with
  | Heap.RegInvImageDigestMap _ | Heap.RegInvImageTagMap _ => True
  | _ => False
  end.

(** ** Inputs for the examples *)

(** A well-formed inventory: one image, a digest with two tags and an
    untagged digest. *)
Definition ri_example : RegInvImage :=
  {[ "img" := {[ "d1" := ["v1"; "v2"]; "d2" := [] ]} ]}.

(** A manifest with two images of distinct names. *)
Definition m_example : Manifest :=
  mkManifest (mkRegistryNames "gcr.io/src" "gcr.io/dest") ""
    [ mkImage "img" {[ "d1" := ["v1"; "v2"]; "d2" := [] ]};
      mkImage "other" {[ "d1" := ["v1"] ]} ].

(** An inventory in which tag "t" of image "img" is listed under two
    digests. *)
Definition ri_conflict : RegInvImage :=
  {[ "img" := {[ "d1" := ["t"]; "d2" := ["t"] ]} ]}.

(** The same, as a manifest. *)
Definition m_conflict : Manifest :=
  mkManifest (mkRegistryNames "gcr.io/src" "gcr.io/dest") ""
    [ mkImage "img" {[ "d1" := ["t"]; "d2" := ["t"] ]} ].

(** A manifest that lists image "img" twice, with different tags for
    digest "d". *)
Definition m_duplicate : Manifest :=
  mkManifest (mkRegistryNames "gcr.io/src" "gcr.io/dest") ""
    [ mkImage "img" {[ "d" := ["t"] ]};
      mkImage "img" {[ "d" := [] ]} ].

(** An inventory with an image that has no digest, and one with an
    image whose only digest is untagged. *)
Definition ri_empty_image : RegInvImage := {[ "img" := ∅ ]}.

Definition ri_untagged : RegInvImage := {[ "img" := {[ "d" := [] ]} ]}.

(** Two orders in which Go may walk [ri_conflict], and the same for the
    [RegInvImageDigest] it converts to. *)
Definition o_d1_d2 : RegInvImageOrder := [("img", ["d1"; "d2"])].
Definition o_d2_d1 : RegInvImageOrder := [("img", ["d2"; "d1"])].
Definition oid_d2_d1 : list ImageDigest :=
  [mkImageDigest "img" "d2"; mkImageDigest "img" "d1"].

(** The [RegInvImageDigest] of [ri_example]. *)
Definition riid_example : RegInvImageDigest :=
  {[ mkImageDigest "img" "d1" := ["v1"; "v2"]; mkImageDigest "img" "d2" := [] ]}.

(** Orders in which Go may walk [m_conflict], [m_duplicate], and the
    inventories [ri_empty_image] and [ri_untagged]. *)
Definition om_d1_d2 : ManifestOrder := [["d1"; "d2"]].
Definition om_duplicate : ManifestOrder := [["d"]; ["d"]].
Definition o_empty_image : RegInvImageOrder := [("img", [])].
Definition o_untagged : RegInvImageOrder := [("img", ["d"])].

(** [ri_untagged] with another digest, and its order. *)
Definition ri_untagged' : RegInvImage := {[ "img" := {[ "d'" := [] ]} ]}.
Definition o_untagged' : RegInvImageOrder := [("img", ["d'"])].

(** A heap that holds [ri_example] at address 1. *)
Definition h_example : Heap.heap :=
  {[ 1%positive := Heap.RegInvImageMap {[ "img" := 2%positive ]};
     2%positive := Heap.DigestTagsMap {[ "d1" := 3%positive; "d2" := 4%positive ]};
     3%positive := Heap.TagArray ["v1"; "v2"];
     4%positive := Heap.TagArray [] ]}.

(** ** More on the conversions *)

(** The image entry [image] lists tag [it.Tag] under digest [d] for the
    image name [it.ImageName]. *)
Definition Image_claims (image : Image) (it : ImageTag) (d : Digest) : Prop :=
  Image_ImageName image = ImageTag_ImageName it
  ∧ ∃ ts, Dmap image !! d = Some ts ∧ ImageTag_Tag it ∈ ts.

(** [l] with [x] moved to the end. *)
Definition move_last `{EqDecision A} (x : A) (l : list A) : list A :=
  filter (λ y, y ≠ x) l ++ [x].

(** An order over [ri] that walks image [i] last and, within it, digest
    [d] last. *)
Definition RegInvImage_order_last (ri : RegInvImage) (i : ImageName)
    (d : Digest) : RegInvImageOrder :=
  (λ j, (j, if decide (j = i)
            then move_last d (keys (default ∅ (ri !! j)))
            else keys (default ∅ (ri !! j))))
    <$> move_last i (keys ri).

(** A manifest that lists image "img" twice, with tag "t" under another
    digest the second time. *)
Definition m_override : Manifest :=
  mkManifest (mkRegistryNames "gcr.io/src" "gcr.io/dest") ""
    [ mkImage "img" {[ "d1" := ["t"] ]};
      mkImage "img" {[ "d2" := ["t"] ]} ].

(** The order over the [RegInvImageDigest] of an inventory that follows
    an order [o] over the inventory. *)
Definition RegInvImageOrder_flatten (o : RegInvImageOrder) : list ImageDigest :=
  o ≫= (λ p, mkImageDigest p.1 <$> p.2).

(** The order over the inventory [ri] that walks the digests of each
    image as the order [o] over its [RegInvImageDigest] has them. *)
Definition RegInvImageOrder_group (ri : RegInvImage) (o : list ImageDigest)
  : RegInvImageOrder :=
  (λ i, (i, ImageDigest_Digest
              <$> filter (λ id, ImageDigest_ImageName id = i) o))
    <$> keys ri.



(** [ri_example] with one more image, and orders over the two. *)
Definition ri_two_images : RegInvImage :=
  {[ "img" := {[ "d1" := ["v1"; "v2"]; "d2" := [] ]};
     "other" := {[ "d9" := ["v1"] ]} ]}.

Definition o_example : RegInvImageOrder := [("img", ["d1"; "d2"])].
Definition o_two_images : RegInvImageOrder :=
  [("other", ["d9"]); ("img", ["d1"; "d2"])].

(** Two orders in which Go may walk [m_example]. *)
Definition om_example : ManifestOrder := [["d1"; "d2"]; ["d1"]].
Definition om_example' : ManifestOrder := [["d2"; "d1"]; ["d1"]].

(** An order in which Go may walk [m_override]. *)
Definition om_override : ManifestOrder := [["d1"]; ["d2"]].

(** * Proofs *)

(** Closed, decidable facts are settled by evaluation. *)
Ltac by_decide := apply (bool_decide_unpack _); vm_compute; exact I.

Section assign.
Context `{Countable K} {V : Type}.
Implicit Types (m : gmap K V) (l : list (K * V)) (k : K) (v : V).

Lemma assign_all_app m l1 l2 :
  assign_all m (l1 ++ l2) = assign_all (assign_all m l1) l2.
Proof. apply foldl_app. Qed.

Lemma assign_all_lookup_Some m l k v :
  assign_all m l !! k = Some v → (k, v) ∈ l ∨ m !! k = Some v.
Proof.
  revert m. induction l as [|[k' v'] l IH]; intros m Hl; simpl in *; [by right|].
  apply IH in Hl as [Hl|Hl]; [left; by right|].
  destruct (decide (k' = k)) as [->|Hne].
  - rewrite lookup_insert_eq in Hl. injection Hl as ->. left. by left.
  - rewrite lookup_insert_ne in Hl by done. by right.
Qed.

Lemma assign_all_lookup_notin m l k :
  k ∉ l.*1 → assign_all m l !! k = m !! k.
Proof.
  revert m. induction l as [|[k' v'] l IH]; intros m Hk; simpl in *; [done|].
  apply not_elem_of_cons in Hk as [Hne Hk].
  rewrite IH by done. by rewrite lookup_insert_ne.
Qed.

Lemma assign_all_lookup_is_Some m l k :
  is_Some (assign_all m l !! k) ↔ k ∈ l.*1 ∨ is_Some (m !! k).
Proof.
  revert m. induction l as [|[k' v'] l IH]; intros m; simpl.
  - rewrite elem_of_nil. naive_solver.
  - rewrite IH, elem_of_cons. destruct (decide (k' = k)) as [->|Hne].
    + rewrite lookup_insert_eq. naive_solver.
    + rewrite lookup_insert_ne by done. naive_solver.
Qed.

(** The last assignment to a key is the one that stays. *)
Lemma assign_all_last_write m l1 l2 k v :
  k ∉ l2.*1 → assign_all m (l1 ++ (k, v) :: l2) !! k = Some v.
Proof.
  intros Hk. rewrite assign_all_app. unfold assign_all at 1. simpl.
  fold (assign_all (<[k:=v]> (assign_all m l1)) l2).
  rewrite assign_all_lookup_notin by done. apply lookup_insert_eq.
Qed.

(** When every assignment to [k] carries the same value, the order of
    the assignments does not matter for [k]. *)
Lemma assign_all_lookup_agree m l k v :
  (∀ v', (k, v') ∈ l → v' = v) → (k, v) ∈ l → assign_all m l !! k = Some v.
Proof.
  intros Hagree Hin.
  assert (is_Some (assign_all m l !! k)) as [v' Hv'].
  { apply assign_all_lookup_is_Some. left.
    apply list_elem_of_fmap. by exists (k, v). }
  assert (k ∈ l.*1) as Hk by (apply list_elem_of_fmap; by exists (k, v)).
  clear Hin. revert m Hv' Hagree Hk.
  induction l as [|[k1 v1] l IH]; intros m Hv' Hagree Hk; simpl in *.
  { by apply elem_of_nil in Hk. }
  destruct (decide (k ∈ l.*1)) as [Hin|Hnin].
  - eapply IH; eauto. intros v2 H2. apply Hagree. by right.
  - apply elem_of_cons in Hk as [->|?]; [|done].
    rewrite assign_all_lookup_notin by done.
    rewrite lookup_insert_eq. f_equal. apply Hagree. by left.
Qed.
End assign.

Lemma foldl_bind {A B C} (f : A → B → A) (g : C → list B) (a : A) (l : list C) :
  foldl f a (l ≫= g) = foldl (λ a x, foldl f a (g x)) a l.
Proof.
  revert a. induction l as [|x l IH]; intros a; simpl; [done|].
  by rewrite foldl_app, IH.
Qed.

(** ** Facts on [range] *)

Section range.
Context `{Countable K} {V : Type}.
Implicit Types (m : gmap K V) (ks : list K).

Lemma elem_of_range m ks k v :
  (k, v) ∈ range m ks ↔ k ∈ ks ∧ m !! k = Some v.
Proof.
  unfold range. rewrite list_elem_of_omap. split.
  - intros (k' & Hk' & Heq). destruct (m !! k') as [v'|] eqn:E; simplify_eq/=.
    done.
  - intros [Hk Hv]. exists k. by rewrite Hv.
Qed.

Lemma key_order_elem_of m ks k :
  key_order m ks → k ∈ ks ↔ is_Some (m !! k).
Proof.
  unfold key_order. intros ->. rewrite list_elem_of_fmap. split.
  - intros ([k' v] & -> & Hin). apply elem_of_map_to_list in Hin. by exists v.
  - intros [v Hv]. exists (k, v). by rewrite elem_of_map_to_list.
Qed.

Lemma key_order_NoDup m ks : key_order m ks → NoDup ks.
Proof. unfold key_order. intros ->. apply NoDup_fst_map_to_list. Qed.

Lemma key_order_keys m : key_order m (keys m).
Proof. unfold key_order, keys. reflexivity. Qed.

Lemma elem_of_range_order m ks k v :
  key_order m ks → (k, v) ∈ range m ks ↔ m !! k = Some v.
Proof.
  intros Hks. rewrite elem_of_range, (key_order_elem_of m ks k Hks).
  naive_solver.
Qed.
End range.

Lemma foldl_ext_eq {A B} (f g : A → B → A) (a : A) (l : list B) :
  (∀ a x, f a x = g a x) → foldl f a l = foldl g a l.
Proof.
  intros Hfg. revert a. induction l as [|x l IH]; intros a; simpl; [done|].
  by rewrite Hfg, IH.
Qed.

Lemma digest_loop_assign imageName entries (riid : RegInvImageDigest) :
  foldl (λ riid '(digest, tagArray),
      <[ mkImageDigest imageName digest := tagArray ]> riid) riid entries
  = assign_all riid (digest_writes imageName entries).
Proof.
  unfold assign_all, digest_writes. rewrite foldl_fmap.
  apply foldl_ext_eq. by intros ? [].
Qed.

Lemma tag_loop_assign imageName entries (riit : RegInvImageTag) :
  foldl (λ riit '(digest, tagArray),
      foldl (λ riit tag, <[ mkImageTag imageName tag := digest ]> riit)
        riit tagArray) riit entries
  = assign_all riit (tag_writes imageName entries).
Proof.
  unfold assign_all, tag_writes. rewrite foldl_bind.
  apply foldl_ext_eq. intros a [d ts]. by rewrite foldl_fmap.
Qed.

Lemma Manifest_ToRegInvImageDigest_assign m o :
  Manifest_ToRegInvImageDigest m o = assign_all ∅ (Manifest_digest_writes m o).
Proof.
  unfold Manifest_ToRegInvImageDigest, Manifest_digest_writes, assign_all at 1.
  rewrite foldl_bind. apply foldl_ext_eq. intros a [image ds].
  apply digest_loop_assign.
Qed.

Lemma Manifest_ToRegInvImageTag_assign m o :
  Manifest_ToRegInvImageTag m o = assign_all ∅ (Manifest_tag_writes m o).
Proof.
  unfold Manifest_ToRegInvImageTag, Manifest_tag_writes, assign_all at 1.
  rewrite foldl_bind. apply foldl_ext_eq. intros a [image ds].
  apply tag_loop_assign.
Qed.

Lemma RegInvImage_ToRegInvImageDigest_assign ri o :
  RegInvImage_ToRegInvImageDigest ri o = assign_all ∅ (RegInvImage_digest_writes ri o).
Proof.
  unfold RegInvImage_ToRegInvImageDigest, RegInvImage_digest_writes, assign_all at 1.
  rewrite foldl_bind. apply foldl_ext_eq. intros a [i ds].
  apply digest_loop_assign.
Qed.

Lemma RegInvImage_ToRegInvImageTag_assign ri o :
  RegInvImage_ToRegInvImageTag ri o = assign_all ∅ (RegInvImage_tag_writes ri o).
Proof.
  unfold RegInvImage_ToRegInvImageTag, RegInvImage_tag_writes, assign_all at 1.
  rewrite foldl_bind. apply foldl_ext_eq. intros a [i ds].
  apply tag_loop_assign.
Qed.

Lemma RegInvImageDigest_ToRegInvImageTag_assign riid o :
  RegInvImageDigest_ToRegInvImageTag riid o
  = assign_all ∅ (RegInvImageDigest_tag_writes riid o).
Proof.
  unfold RegInvImageDigest_ToRegInvImageTag, RegInvImageDigest_tag_writes,
    assign_all.
  rewrite foldl_bind. apply foldl_ext_eq. intros a [id ts].
  by rewrite foldl_fmap.
Qed.

Lemma elem_of_digest_writes imageName entries id ts :
  (id, ts) ∈ digest_writes imageName entries
  ↔ ImageDigest_ImageName id = imageName ∧ (ImageDigest_Digest id, ts) ∈ entries.
Proof.
  unfold digest_writes. rewrite list_elem_of_fmap. split.
  - intros ([d ts'] & Heq & Hin). by simplify_eq/=.
  - intros [<- Hin]. exists (ImageDigest_Digest id, ts). by destruct id.
Qed.

Lemma elem_of_tag_writes imageName entries it d :
  (it, d) ∈ tag_writes imageName entries
  ↔ ImageTag_ImageName it = imageName
    ∧ ∃ ts, (d, ts) ∈ entries ∧ ImageTag_Tag it ∈ ts.
Proof.
  unfold tag_writes. rewrite list_elem_of_bind. split.
  - intros ([d' ts] & Hin & He). apply list_elem_of_fmap in Hin as (t & Heq & Ht).
    simplify_eq/=. eauto.
  - intros (<- & ts & He & Ht). exists (d, ts). split; [|done].
    apply list_elem_of_fmap. exists (ImageTag_Tag it). by destruct it.
Qed.

(** *** Orders and what the loops visit *)

Lemma Manifest_order_zip m o image ds :
  Manifest_order m o → (image, ds) ∈ zip (Images m) o →
  image ∈ Images m ∧ key_order (Dmap image) ds.
Proof.
  unfold Manifest_order. generalize (Images m). intros l HF.
  induction HF as [|x y l k Hxy HF IH]; simpl; intros Hin.
  - by apply elem_of_nil in Hin.
  - apply elem_of_cons in Hin as [Heq|Hin].
    + simplify_eq. split; [by left|done].
    + destruct (IH Hin). split; [by right|done].
Qed.

Lemma Manifest_order_visits m o image :
  Manifest_order m o → image ∈ Images m → ∃ ds, (image, ds) ∈ zip (Images m) o.
Proof.
  unfold Manifest_order. generalize (Images m). intros l HF.
  induction HF as [|x y l k Hxy HF IH]; simpl; intros Hin.
  - by apply elem_of_nil in Hin.
  - apply elem_of_cons in Hin as [->|Hin].
    + exists y. by left.
    + destruct (IH Hin) as [ds Hds]. exists ds. by right.
Qed.

Lemma Manifest_order_keys m : Manifest_order m (Manifest_keys m).
Proof.
  unfold Manifest_order, Manifest_keys. induction (Images m); simpl.
  - constructor.
  - constructor; [apply key_order_keys|done].
Qed.

Lemma RegInvImage_order_elem_of ri o i ds :
  RegInvImage_order ri o → (i, ds) ∈ o →
  ∃ digestTags, ri !! i = Some digestTags ∧ key_order digestTags ds.
Proof.
  intros [Hks HF] Hin. rewrite Forall_forall in HF. specialize (HF _ Hin).
  assert (i ∈ o.*1) as Hi by (apply list_elem_of_fmap; by exists (i, ds)).
  apply (key_order_elem_of _ _ _ Hks) in Hi as [dt Hdt]. exists dt.
  split; [done|]. simpl in HF. by rewrite Hdt in HF.
Qed.

Lemma RegInvImage_order_visits ri o i digestTags :
  RegInvImage_order ri o → ri !! i = Some digestTags →
  ∃ ds, (i, ds) ∈ o ∧ key_order digestTags ds.
Proof.
  intros Ho Hi. pose proof Ho as [Hks _].
  assert (i ∈ o.*1) as Hin by (by apply (key_order_elem_of ri); [|eexists]).
  apply list_elem_of_fmap in Hin as ([i' ds] & -> & Hin). exists ds.
  split; [done|].
  destruct (RegInvImage_order_elem_of _ _ _ _ Ho Hin) as (dt & Hdt & Hds).
  simpl in *. by simplify_eq.
Qed.

Lemma RegInvImage_order_keys ri : RegInvImage_order ri (RegInvImage_keys ri).
Proof.
  unfold RegInvImage_order, RegInvImage_keys. split.
  - unfold key_order. rewrite <-list_fmap_compose.
    erewrite list_fmap_ext; [reflexivity|]. by intros ? [].
  - apply Forall_forall. intros p Hp.
    apply list_elem_of_fmap in Hp as ([i dt] & -> & Hin). simpl.
    apply elem_of_map_to_list in Hin. rewrite Hin. apply key_order_keys.
Qed.

Lemma RegInvImageDigest_order_keys (riid : RegInvImageDigest) :
  RegInvImageDigest_order riid (keys riid).
Proof. apply key_order_keys. Qed.

(** *** The assignments, by what the source holds *)

Lemma elem_of_Manifest_digest_writes m o id ts :
  Manifest_order m o →
  (id, ts) ∈ Manifest_digest_writes m o
  ↔ Manifest_has m (ImageDigest_ImageName id) (ImageDigest_Digest id) ts.
Proof.
  intros Ho. unfold Manifest_digest_writes, Manifest_has.
  rewrite list_elem_of_bind. split.
  - intros ([image ds] & Hin & Hz). simpl in *.
    destruct (Manifest_order_zip _ _ _ _ Ho Hz) as [Himg Hds].
    apply elem_of_digest_writes in Hin as [Hn Hin].
    apply (elem_of_range_order _ _ _ _ Hds) in Hin. eauto.
  - intros (image & Himg & Hn & Hd).
    destruct (Manifest_order_visits _ _ _ Ho Himg) as [ds Hz].
    exists (image, ds). split; [|done]. simpl.
    destruct (Manifest_order_zip _ _ _ _ Ho Hz) as [_ Hds].
    apply elem_of_digest_writes. split; [done|].
    by apply (elem_of_range_order _ _ _ _ Hds).
Qed.

Lemma elem_of_Manifest_tag_writes m o it d :
  Manifest_order m o →
  (it, d) ∈ Manifest_tag_writes m o
  ↔ ∃ ts, Manifest_has m (ImageTag_ImageName it) d ts ∧ ImageTag_Tag it ∈ ts.
Proof.
  intros Ho. unfold Manifest_tag_writes, Manifest_has.
  rewrite list_elem_of_bind. split.
  - intros ([image ds] & Hin & Hz). simpl in *.
    destruct (Manifest_order_zip _ _ _ _ Ho Hz) as [Himg Hds].
    apply elem_of_tag_writes in Hin as (Hn & ts & Hin & Ht).
    apply (elem_of_range_order _ _ _ _ Hds) in Hin. eauto 10.
  - intros (ts & (image & Himg & Hn & Hd) & Ht).
    destruct (Manifest_order_visits _ _ _ Ho Himg) as [ds Hz].
    exists (image, ds). split; [|done]. simpl.
    destruct (Manifest_order_zip _ _ _ _ Ho Hz) as [_ Hds].
    apply elem_of_tag_writes. split; [done|]. exists ts. split; [|done].
    by apply (elem_of_range_order _ _ _ _ Hds).
Qed.

Lemma elem_of_RegInvImage_digest_writes ri o id ts :
  RegInvImage_order ri o →
  (id, ts) ∈ RegInvImage_digest_writes ri o
  ↔ RegInvImage_has ri (ImageDigest_ImageName id) (ImageDigest_Digest id) ts.
Proof.
  intros Ho. unfold RegInvImage_digest_writes, RegInvImage_has.
  rewrite list_elem_of_bind. split.
  - intros ([i ds] & Hin & Hz). simpl in *.
    destruct (RegInvImage_order_elem_of _ _ _ _ Ho Hz) as (dt & Hdt & Hds).
    rewrite Hdt in Hin. simpl in Hin.
    apply elem_of_digest_writes in Hin as [Hn Hin].
    apply (elem_of_range_order _ _ _ _ Hds) in Hin. subst i. eauto.
  - intros (dt & Hdt & Hd).
    destruct (RegInvImage_order_visits _ _ _ _ Ho Hdt) as (ds & Hz & Hds).
    exists (ImageDigest_ImageName id, ds). split; [|done]. simpl.
    rewrite Hdt. simpl. apply elem_of_digest_writes. split; [done|].
    by apply (elem_of_range_order _ _ _ _ Hds).
Qed.

Lemma elem_of_RegInvImage_tag_writes ri o it d :
  RegInvImage_order ri o →
  (it, d) ∈ RegInvImage_tag_writes ri o
  ↔ ∃ ts, RegInvImage_has ri (ImageTag_ImageName it) d ts ∧ ImageTag_Tag it ∈ ts.
Proof.
  intros Ho. unfold RegInvImage_tag_writes, RegInvImage_has.
  rewrite list_elem_of_bind. split.
  - intros ([i ds] & Hin & Hz). simpl in *.
    destruct (RegInvImage_order_elem_of _ _ _ _ Ho Hz) as (dt & Hdt & Hds).
    rewrite Hdt in Hin. simpl in Hin.
    apply elem_of_tag_writes in Hin as (Hn & ts & Hin & Ht).
    apply (elem_of_range_order _ _ _ _ Hds) in Hin. subst i. eauto 10.
  - intros (ts & (dt & Hdt & Hd) & Ht).
    destruct (RegInvImage_order_visits _ _ _ _ Ho Hdt) as (ds & Hz & Hds).
    exists (ImageTag_ImageName it, ds). split; [|done]. simpl.
    rewrite Hdt. simpl. apply elem_of_tag_writes. split; [done|].
    exists ts. split; [|done]. by apply (elem_of_range_order _ _ _ _ Hds).
Qed.

Lemma elem_of_RegInvImageDigest_tag_writes riid o it d :
  RegInvImageDigest_order riid o →
  (it, d) ∈ RegInvImageDigest_tag_writes riid o
  ↔ ∃ ts, RegInvImageDigest_has riid (ImageTag_ImageName it) d ts
          ∧ ImageTag_Tag it ∈ ts.
Proof.
  intros Ho. unfold RegInvImageDigest_tag_writes, RegInvImageDigest_has.
  rewrite list_elem_of_bind. split.
  - intros ([[i d'] ts] & Hin & Hz). simpl in *.
    apply (elem_of_range_order _ _ _ _ Ho) in Hz.
    apply list_elem_of_fmap in Hin as (t & Heq & Ht). simplify_eq/=. eauto.
  - intros (ts & Hd & Ht). exists (mkImageDigest (ImageTag_ImageName it) d, ts).
    split; [|by apply (elem_of_range_order _ _ _ _ Ho)]. simpl.
    apply list_elem_of_fmap. exists (ImageTag_Tag it). by destruct it.
Qed.

(** ** Lookups in the result of a conversion *)

Section assign_lookup.
Context `{Countable K} {V : Type}.
Implicit Types (l : list (K * V)) (k : K) (v : V).

Lemma assign_all_empty_is_Some l k :
  is_Some (assign_all ∅ l !! k) ↔ ∃ v, (k, v) ∈ l.
Proof.
  rewrite assign_all_lookup_is_Some, lookup_empty, list_elem_of_fmap. split.
  - intros [([k' v] & -> & Hin)|[? ?]]; [by exists v|done].
  - intros [v Hin]. left. by exists (k, v).
Qed.

Lemma assign_all_empty_Some l k v :
  assign_all ∅ l !! k = Some v → (k, v) ∈ l.
Proof.
  intros Hl. apply assign_all_lookup_Some in Hl as [Hl|Hl]; [done|].
  by rewrite lookup_empty in Hl.
Qed.

Lemma assign_all_agreeing l k v :
  agreeing l → assign_all ∅ l !! k = Some v ↔ (k, v) ∈ l.
Proof.
  intros Hl. split; [apply assign_all_empty_Some|].
  intros Hin. apply assign_all_lookup_agree; [|done].
  intros v' Hv'. by apply (Hl k).
Qed.

Lemma assign_all_agreeing_eq l1 l2 :
  agreeing l1 → (∀ p, p ∈ l1 ↔ p ∈ l2) → assign_all ∅ l1 = assign_all ∅ l2.
Proof.
  intros H1 Heq.
  assert (agreeing l2) as H2.
  { intros k v v' Hv Hv'. apply Heq in Hv, Hv'. by apply (H1 k). }
  apply map_eq. intros k. apply option_eq. intros v.
  by rewrite !assign_all_agreeing, Heq.
Qed.
End assign_lookup.

Lemma RegInvImage_has_agree ri i d ts1 ts2 :
  RegInvImage_has ri i d ts1 → RegInvImage_has ri i d ts2 → ts1 = ts2.
Proof. intros (dt1 & ? & ?) (dt2 & ? & ?). by simplify_eq. Qed.

Lemma RegInvImage_has_lookup ri i d ts :
  RegInvImage_has ri i d ts ↔ ri !! i ≫= (λ digestTags, digestTags !! d) = Some ts.
Proof.
  unfold RegInvImage_has. destruct (ri !! i) as [dt|]; simpl; naive_solver.
Qed.

Lemma RegInvImage_digest_writes_agreeing ri o :
  RegInvImage_order ri o → agreeing (RegInvImage_digest_writes ri o).
Proof.
  intros Ho id ts1 ts2 H1 H2.
  apply (elem_of_RegInvImage_digest_writes _ _ _ _ Ho) in H1, H2.
  by eapply RegInvImage_has_agree.
Qed.

Lemma RegInvImage_ToRegInvImageDigest_lookup ri o i d :
  RegInvImage_order ri o →
  RegInvImage_ToRegInvImageDigest ri o !! mkImageDigest i d
  = ri !! i ≫= (λ digestTags, digestTags !! d).
Proof.
  intros Ho. apply option_eq. intros ts.
  rewrite RegInvImage_ToRegInvImageDigest_assign.
  rewrite assign_all_agreeing by by apply RegInvImage_digest_writes_agreeing.
  rewrite (elem_of_RegInvImage_digest_writes _ _ _ _ Ho). simpl.
  apply RegInvImage_has_lookup.
Qed.

(** C8.  For every [RegInvImage] [ri] and every order in which Go may walk
    it, [ri.ToRegInvImageDigest()] maps the key [ImageDigest{i, d}] to the
    tag slice [ri[i][d]], tags and order as they are, for every image [i]
    of [ri] and digest [d] of [ri[i]], and has no other key. *)
Theorem RegInvImage_ToRegInvImageDigest_spec (ri : RegInvImage)
    (o : RegInvImageOrder) (id : ImageDigest) :
  RegInvImage_order ri o →
  RegInvImage_ToRegInvImageDigest ri o !! id
  = ri !! ImageDigest_ImageName id ≫=
      (λ digestTags, digestTags !! ImageDigest_Digest id).
Proof.
  destruct id as [i d]. apply RegInvImage_ToRegInvImageDigest_lookup.
Qed.

Lemma RegInvImage_ToRegInvImageDigest_spec_witness :
  RegInvImage_order ri_example (RegInvImage_keys ri_example)
  ∧ RegInvImage_ToRegInvImageDigest ri_example (RegInvImage_keys ri_example)
      !! mkImageDigest "img" "d1"
    = Some ["v1"; "v2"].
Proof.
  assert (RegInvImage_order ri_example (RegInvImage_keys ri_example)) as Ho
    by by_decide.
  split; [exact Ho|].
  rewrite (RegInvImage_ToRegInvImageDigest_spec ri_example
             (RegInvImage_keys ri_example) (mkImageDigest "img" "d1") Ho).
  vm_compute. reflexivity.
Defined.

(** C3.  Conversion to [RegInvImageDigest] keeps every (image, digest)
    entry of the source as a key, whatever its tag slice holds (also the
    empty one), and adds none: the keys of the result are the (image,
    digest) pairs of the source, for a [RegInvImage] and for a
    [Manifest]. *)
Theorem ToRegInvImageDigest_keys (i : ImageName) (d : Digest) :
  (∀ (ri : RegInvImage) (o : RegInvImageOrder),
     RegInvImage_order ri o →
     is_Some (RegInvImage_ToRegInvImageDigest ri o !! mkImageDigest i d)
     ↔ ∃ ts, RegInvImage_has ri i d ts)
  ∧ (∀ (m : Manifest) (o : ManifestOrder),
       Manifest_order m o →
       is_Some (Manifest_ToRegInvImageDigest m o !! mkImageDigest i d)
       ↔ ∃ ts, Manifest_has m i d ts).
Proof.
  split.
  - intros ri o Ho. rewrite RegInvImage_ToRegInvImageDigest_assign.
    rewrite assign_all_empty_is_Some. apply exist_proper. intros ts.
    by rewrite (elem_of_RegInvImage_digest_writes _ _ _ _ Ho).
  - intros m o Ho. rewrite Manifest_ToRegInvImageDigest_assign.
    rewrite assign_all_empty_is_Some. apply exist_proper. intros ts.
    by rewrite (elem_of_Manifest_digest_writes _ _ _ _ Ho).
Qed.

Lemma ToRegInvImageDigest_keys_witness :
  is_Some (RegInvImage_ToRegInvImageDigest ri_example (RegInvImage_keys ri_example)
             !! mkImageDigest "img" "d2")
  ∧ is_Some (Manifest_ToRegInvImageDigest m_example (Manifest_keys m_example)
               !! mkImageDigest "img" "d2").
Proof.
  destruct (ToRegInvImageDigest_keys "img" "d2") as [Hri Hm]. split.
  - apply (Hri ri_example (RegInvImage_keys ri_example)); [by_decide|].
    exists []. apply RegInvImage_has_lookup. vm_compute. reflexivity.
  - apply (Hm m_example (Manifest_keys m_example)); [by_decide|].
    exists [], (mkImage "img" {[ "d1" := ["v1"; "v2"]; "d2" := [] ]}).
    split_and!; [constructor|reflexivity|vm_compute; reflexivity].
Defined.

(** C9.  The [RegInvImageTag] view of a [RegInvImage] (and of a
    [RegInvImageDigest]) has the key (i, t) exactly when tag [t] occurs in
    the tag slice of some digest of image [i] in the source, and the digest
    it holds at (i, t) is one whose tag slice lists [t].  So a digest with
    an empty tag slice contributes no key and is held at no key of its
    image: untagged digests are absent from the view. *)
Theorem ToRegInvImageTag_keys (i : ImageName) (t : Tag) :
  (∀ (ri : RegInvImage) (o : RegInvImageOrder),
     RegInvImage_order ri o →
     (is_Some (RegInvImage_ToRegInvImageTag ri o !! mkImageTag i t)
      ↔ ∃ d ts, RegInvImage_has ri i d ts ∧ t ∈ ts)
     ∧ (∀ d, RegInvImage_ToRegInvImageTag ri o !! mkImageTag i t = Some d →
             ∃ ts, RegInvImage_has ri i d ts ∧ t ∈ ts)
     ∧ (∀ d, RegInvImage_has ri i d [] →
             RegInvImage_ToRegInvImageTag ri o !! mkImageTag i t ≠ Some d))
  ∧ (∀ (riid : RegInvImageDigest) (o : list ImageDigest),
       RegInvImageDigest_order riid o →
       (is_Some (RegInvImageDigest_ToRegInvImageTag riid o !! mkImageTag i t)
        ↔ ∃ d ts, RegInvImageDigest_has riid i d ts ∧ t ∈ ts)
       ∧ (∀ d, RegInvImageDigest_ToRegInvImageTag riid o !! mkImageTag i t = Some d →
               ∃ ts, RegInvImageDigest_has riid i d ts ∧ t ∈ ts)
       ∧ (∀ d, RegInvImageDigest_has riid i d [] →
               RegInvImageDigest_ToRegInvImageTag riid o !! mkImageTag i t ≠ Some d)).
Proof.
  split.
  - intros ri o Ho.
    assert (∀ d, RegInvImage_ToRegInvImageTag ri o !! mkImageTag i t = Some d →
                 ∃ ts, RegInvImage_has ri i d ts ∧ t ∈ ts) as Hheld.
    { intros d Hl. rewrite RegInvImage_ToRegInvImageTag_assign in Hl.
      apply assign_all_empty_Some in Hl.
      by apply (elem_of_RegInvImage_tag_writes _ _ _ _ Ho) in Hl. }
    split_and!; [|exact Hheld|].
    + rewrite RegInvImage_ToRegInvImageTag_assign.
      rewrite assign_all_empty_is_Some. apply exist_proper. intros d.
      by rewrite (elem_of_RegInvImage_tag_writes _ _ _ _ Ho).
    + intros d (digestTags & Hi & Hd) Hl.
      destruct (Hheld d Hl) as (ts & (digestTags' & Hi' & Hd') & Ht).
      rewrite Hi in Hi'. injection Hi' as <-. rewrite Hd in Hd'.
      injection Hd' as <-. by apply elem_of_nil in Ht.
  - intros riid o Ho.
    assert (∀ d, RegInvImageDigest_ToRegInvImageTag riid o !! mkImageTag i t = Some d →
                 ∃ ts, RegInvImageDigest_has riid i d ts ∧ t ∈ ts) as Hheld.
    { intros d Hl. rewrite RegInvImageDigest_ToRegInvImageTag_assign in Hl.
      apply assign_all_empty_Some in Hl.
      by apply (elem_of_RegInvImageDigest_tag_writes _ _ _ _ Ho) in Hl. }
    split_and!; [|exact Hheld|].
    + rewrite RegInvImageDigest_ToRegInvImageTag_assign.
      rewrite assign_all_empty_is_Some. apply exist_proper. intros d.
      by rewrite (elem_of_RegInvImageDigest_tag_writes _ _ _ _ Ho).
    + intros d Hd Hl. destruct (Hheld d Hl) as (ts & Hd' & Ht).
      unfold RegInvImageDigest_has in Hd, Hd'. rewrite Hd in Hd'.
      injection Hd' as <-. by apply elem_of_nil in Ht.
Qed.

Lemma ToRegInvImageTag_keys_witness :
  (RegInvImage_order ri_example (RegInvImage_keys ri_example)
   ∧ is_Some (RegInvImage_ToRegInvImageTag ri_example (RegInvImage_keys ri_example)
                !! mkImageTag "img" "v2")
   ∧ RegInvImage_ToRegInvImageTag ri_example (RegInvImage_keys ri_example)
       !! mkImageTag "img" "v2" ≠ Some "d2")
  ∧ (RegInvImageDigest_order riid_example (keys riid_example)
     ∧ is_Some (RegInvImageDigest_ToRegInvImageTag riid_example (keys riid_example)
                  !! mkImageTag "img" "v2")
     ∧ RegInvImageDigest_ToRegInvImageTag riid_example (keys riid_example)
         !! mkImageTag "img" "v2" ≠ Some "d2").
Proof.
  destruct (ToRegInvImageTag_keys "img" "v2") as [Hri Hriid]. split.
  - assert (RegInvImage_order ri_example (RegInvImage_keys ri_example)) as Ho
      by by_decide.
    destruct (Hri ri_example (RegInvImage_keys ri_example) Ho)
      as (Hkey & _ & Huntagged).
    split_and!; [exact Ho| |].
    + apply Hkey. exists "d1", ["v1"; "v2"]. split; [|by_decide].
      apply RegInvImage_has_lookup. vm_compute. reflexivity.
    + apply Huntagged. apply RegInvImage_has_lookup. vm_compute. reflexivity.
  - assert (RegInvImageDigest_order riid_example (keys riid_example)) as Ho
      by by_decide.
    destruct (Hriid riid_example (keys riid_example) Ho)
      as (Hkey & _ & Huntagged).
    split_and!; [exact Ho| |].
    + apply Hkey. exists "d1", ["v1"; "v2"]. split; [|by_decide].
      unfold RegInvImageDigest_has. vm_compute. reflexivity.
    + apply Huntagged. unfold RegInvImageDigest_has. vm_compute. reflexivity.
Defined.

Lemma Manifest_ToRegInvImageTag_Some m o it d :
  Manifest_order m o →
  Manifest_ToRegInvImageTag m o !! it = Some d → Manifest_claims m it d.
Proof.
  intros Ho Hl. rewrite Manifest_ToRegInvImageTag_assign in Hl.
  apply assign_all_empty_Some in Hl.
  by apply (elem_of_Manifest_tag_writes _ _ _ _ Ho) in Hl.
Qed.

Lemma Manifest_ToRegInvImageTag_is_Some m o it :
  Manifest_order m o →
  is_Some (Manifest_ToRegInvImageTag m o !! it) ↔ ∃ d, Manifest_claims m it d.
Proof.
  intros Ho. rewrite Manifest_ToRegInvImageTag_assign.
  rewrite assign_all_empty_is_Some. apply exist_proper. intros d.
  by rewrite (elem_of_Manifest_tag_writes _ _ _ _ Ho).
Qed.

Lemma RegInvImage_ToRegInvImageTag_Some ri o it d :
  RegInvImage_order ri o →
  RegInvImage_ToRegInvImageTag ri o !! it = Some d → RegInvImage_claims ri it d.
Proof.
  intros Ho Hl. rewrite RegInvImage_ToRegInvImageTag_assign in Hl.
  apply assign_all_empty_Some in Hl.
  by apply (elem_of_RegInvImage_tag_writes _ _ _ _ Ho) in Hl.
Qed.

Lemma RegInvImage_ToRegInvImageTag_is_Some ri o it :
  RegInvImage_order ri o →
  is_Some (RegInvImage_ToRegInvImageTag ri o !! it) ↔ ∃ d, RegInvImage_claims ri it d.
Proof.
  intros Ho. rewrite RegInvImage_ToRegInvImageTag_assign.
  rewrite assign_all_empty_is_Some. apply exist_proper. intros d.
  by rewrite (elem_of_RegInvImage_tag_writes _ _ _ _ Ho).
Qed.

Lemma RegInvImageDigest_ToRegInvImageTag_Some riid o it d :
  RegInvImageDigest_order riid o →
  RegInvImageDigest_ToRegInvImageTag riid o !! it = Some d →
  RegInvImageDigest_claims riid it d.
Proof.
  intros Ho Hl. rewrite RegInvImageDigest_ToRegInvImageTag_assign in Hl.
  apply assign_all_empty_Some in Hl.
  by apply (elem_of_RegInvImageDigest_tag_writes _ _ _ _ Ho) in Hl.
Qed.

Lemma RegInvImageDigest_ToRegInvImageTag_is_Some riid o it :
  RegInvImageDigest_order riid o →
  is_Some (RegInvImageDigest_ToRegInvImageTag riid o !! it)
  ↔ ∃ d, RegInvImageDigest_claims riid it d.
Proof.
  intros Ho. rewrite RegInvImageDigest_ToRegInvImageTag_assign.
  rewrite assign_all_empty_is_Some. apply exist_proper. intros d.
  by rewrite (elem_of_RegInvImageDigest_tag_writes _ _ _ _ Ho).
Qed.

Lemma DigestTags_tags_unique_lookup (dt : DigestTags) d1 d2 ts1 ts2 t :
  DigestTags_tags_unique dt →
  dt !! d1 = Some ts1 → dt !! d2 = Some ts2 → t ∈ ts1 → t ∈ ts2 → d1 = d2.
Proof.
  intros Hu H1 H2 Ht1 Ht2.
  specialize (Hu d1 ts1 H1 d2 ts2 H2). simpl in Hu.
  rewrite Forall_forall in Hu. by apply (Hu t).
Qed.

Lemma RegInvImage_claims_agree ri it d1 d2 :
  RegInvImage_tags_unique ri →
  RegInvImage_claims ri it d1 → RegInvImage_claims ri it d2 → d1 = d2.
Proof.
  intros Hu (ts1 & (dt1 & Hi1 & Hd1) & Ht1) (ts2 & (dt2 & Hi2 & Hd2) & Ht2).
  simplify_eq. eapply DigestTags_tags_unique_lookup; [|done..].
  by apply (Hu _ _ Hi1).
Qed.

Lemma RegInvImage_tag_writes_agreeing ri o :
  RegInvImage_order ri o → RegInvImage_tags_unique ri →
  agreeing (RegInvImage_tag_writes ri o).
Proof.
  intros Ho Hu it d1 d2 H1 H2.
  apply (elem_of_RegInvImage_tag_writes _ _ _ _ Ho) in H1, H2.
  by eapply RegInvImage_claims_agree.
Qed.

Lemma RegInvImage_ToRegInvImageDigest_has ri o i d ts :
  RegInvImage_order ri o →
  RegInvImageDigest_has (RegInvImage_ToRegInvImageDigest ri o) i d ts
  ↔ RegInvImage_has ri i d ts.
Proof.
  intros Ho. unfold RegInvImageDigest_has.
  rewrite RegInvImage_ToRegInvImageDigest_lookup by done.
  by rewrite RegInvImage_has_lookup.
Qed.

Lemma Manifest_names_distinct_inj m image1 image2 :
  Manifest_names_distinct m →
  image1 ∈ Images m → image2 ∈ Images m →
  Image_ImageName image1 = Image_ImageName image2 → image1 = image2.
Proof.
  unfold Manifest_names_distinct. generalize (Images m). intros l.
  induction l as [|x l IH]; intros Hnd H1 H2 Heq.
  { by apply elem_of_nil in H1. }
  rewrite fmap_cons in Hnd. apply NoDup_cons in Hnd as [Hx Hnd].
  apply elem_of_cons in H1 as [->|H1], H2 as [->|H2]; [done| | |by apply IH].
  - destruct Hx. rewrite Heq. by apply list_elem_of_fmap_2.
  - destruct Hx. rewrite <-Heq. by apply list_elem_of_fmap_2.
Qed.

Lemma Manifest_has_agree m i d ts1 ts2 :
  Manifest_names_distinct m →
  Manifest_has m i d ts1 → Manifest_has m i d ts2 → ts1 = ts2.
Proof.
  intros Hnd (im1 & Hin1 & Hn1 & Hd1) (im2 & Hin2 & Hn2 & Hd2).
  assert (im1 = im2) as -> by (apply (Manifest_names_distinct_inj m); congruence).
  congruence.
Qed.

Lemma Manifest_claims_agree m it d1 d2 :
  Manifest_names_distinct m → Manifest_tags_unique m →
  Manifest_claims m it d1 → Manifest_claims m it d2 → d1 = d2.
Proof.
  intros Hnd Hu (ts1 & (im1 & Hin1 & Hn1 & Hd1) & Ht1)
    (ts2 & (im2 & Hin2 & Hn2 & Hd2) & Ht2).
  assert (im1 = im2) as -> by (apply (Manifest_names_distinct_inj m); congruence).
  unfold Manifest_tags_unique in Hu. rewrite Forall_forall in Hu.
  by eapply (DigestTags_tags_unique_lookup _ _ _ _ _ _ (Hu _ Hin1)).
Qed.

Lemma Manifest_as_RegInvImage_has m i d ts :
  Manifest_names_distinct m →
  RegInvImage_has (Manifest_as_RegInvImage m) i d ts ↔ Manifest_has m i d ts.
Proof.
  intros Hnd. unfold RegInvImage_has, Manifest_has, Manifest_as_RegInvImage.
  assert (∀ dt, (list_to_map ((λ image, (Image_ImageName image, Dmap image))
                    <$> Images m) : RegInvImage) !! i = Some dt
    ↔ ∃ image, image ∈ Images m ∧ Image_ImageName image = i ∧ Dmap image = dt)
    as Hlk.
  { intros dt. rewrite <-elem_of_list_to_map.
    - rewrite list_elem_of_fmap. naive_solver.
    - by rewrite <-list_fmap_compose. }
  split.
  - intros (dt & Hi & Hd). apply Hlk in Hi as (image & ? & ? & <-). eauto.
  - intros (image & ? & ? & ?). exists (Dmap image). split; [|done].
    apply Hlk. eauto.
Qed.

Lemma Manifest_as_RegInvImage_tags_unique m :
  Manifest_names_distinct m → Manifest_tags_unique m →
  RegInvImage_tags_unique (Manifest_as_RegInvImage m).
Proof.
  intros Hnd Hu i dt Hi. unfold Manifest_as_RegInvImage in Hi.
  apply elem_of_list_to_map_2 in Hi.
  apply list_elem_of_fmap in Hi as (image & Heq & Hin). simplify_eq.
  unfold Manifest_tags_unique in Hu. rewrite Forall_forall in Hu. by apply Hu.
Qed.

(** C1, as the code has it.  For every [RegInvImage] that lists no tag
    under two digests of one image, converting it to [RegInvImageDigest]
    and then to [RegInvImageTag] gives the map that converting it directly
    gives, in whatever orders Go walks the maps. *)
Theorem RegInvImage_round_trip (ri : RegInvImage) (o1 : RegInvImageOrder)
    (o2 : list ImageDigest) (o3 : RegInvImageOrder) :
  RegInvImage_tags_unique ri →
  RegInvImage_order ri o1 →
  RegInvImageDigest_order (RegInvImage_ToRegInvImageDigest ri o1) o2 →
  RegInvImage_order ri o3 →
  RegInvImageDigest_ToRegInvImageTag (RegInvImage_ToRegInvImageDigest ri o1) o2
  = RegInvImage_ToRegInvImageTag ri o3.
Proof.
  intros Hu Ho1 Ho2 Ho3.
  rewrite RegInvImageDigest_ToRegInvImageTag_assign, RegInvImage_ToRegInvImageTag_assign.
  symmetry. apply assign_all_agreeing_eq.
  { by apply RegInvImage_tag_writes_agreeing. }
  intros [it d].
  rewrite (elem_of_RegInvImage_tag_writes _ _ _ _ Ho3).
  rewrite (elem_of_RegInvImageDigest_tag_writes _ _ _ _ Ho2).
  apply exist_proper. intros ts.
  by rewrite (RegInvImage_ToRegInvImageDigest_has _ _ _ _ _ Ho1).
Qed.

Lemma RegInvImage_round_trip_witness :
  RegInvImage_tags_unique ri_example
  ∧ RegInvImageDigest_ToRegInvImageTag
      (RegInvImage_ToRegInvImageDigest ri_example (RegInvImage_keys ri_example))
      (keys (RegInvImage_ToRegInvImageDigest ri_example
               (RegInvImage_keys ri_example)))
    = RegInvImage_ToRegInvImageTag ri_example (RegInvImage_keys ri_example).
Proof.
  assert (RegInvImage_tags_unique ri_example) as Hu by by_decide.
  split; [exact Hu|].
  apply (RegInvImage_round_trip ri_example); [exact Hu|by_decide..].
Defined.

(** C1, refuted as stated: [ri_conflict] lists tag "t" under the digests
    "d1" and "d2"; walking the inventory in the order d1, d2 and its
    [RegInvImageDigest] in the order d2, d1, the direct conversion maps
    the tag to "d2" and the conversion through [RegInvImageDigest] to
    "d1". *)
Lemma RegInvImage_round_trip_counterexample :
  RegInvImage_order ri_conflict o_d1_d2
  ∧ RegInvImageDigest_order
      (RegInvImage_ToRegInvImageDigest ri_conflict o_d1_d2) oid_d2_d1
  ∧ RegInvImageDigest_ToRegInvImageTag
      (RegInvImage_ToRegInvImageDigest ri_conflict o_d1_d2) oid_d2_d1
      !! mkImageTag "img" "t" = Some "d1"
  ∧ RegInvImage_ToRegInvImageTag ri_conflict o_d1_d2
      !! mkImageTag "img" "t" = Some "d2"
  ∧ RegInvImageDigest_ToRegInvImageTag
      (RegInvImage_ToRegInvImageDigest ri_conflict o_d1_d2) oid_d2_d1
    ≠ RegInvImage_ToRegInvImageTag ri_conflict o_d1_d2.
Proof.
  split_and!; [by_decide|by_decide|vm_compute; reflexivity..|].
  intros Heq. apply (f_equal (λ riit, riit !! mkImageTag "img" "t")) in Heq.
  vm_compute in Heq. discriminate.
Qed.

(** C5, as the code has it.  For every [Manifest] whose images have
    pairwise-distinct names, [m.ToRegInvImageDigest()] is the
    [RegInvImageDigest] of the inventory that maps each image name to its
    [Dmap]; and when no tag is listed under two digests of one image,
    [m.ToRegInvImageTag()] is the [RegInvImageTag] of that inventory. *)
Theorem Manifest_as_RegInvImage_views (m : Manifest) (o : ManifestOrder)
    (o' : RegInvImageOrder) :
  Manifest_names_distinct m →
  Manifest_order m o →
  RegInvImage_order (Manifest_as_RegInvImage m) o' →
  Manifest_ToRegInvImageDigest m o
    = RegInvImage_ToRegInvImageDigest (Manifest_as_RegInvImage m) o'
  ∧ (Manifest_tags_unique m →
     Manifest_ToRegInvImageTag m o
     = RegInvImage_ToRegInvImageTag (Manifest_as_RegInvImage m) o').
Proof.
  intros Hnd Ho Ho'. split.
  - rewrite Manifest_ToRegInvImageDigest_assign, RegInvImage_ToRegInvImageDigest_assign.
    symmetry. apply assign_all_agreeing_eq.
    { by apply RegInvImage_digest_writes_agreeing. }
    intros [id ts].
    rewrite (elem_of_RegInvImage_digest_writes _ _ _ _ Ho').
    rewrite (elem_of_Manifest_digest_writes _ _ _ _ Ho).
    by apply Manifest_as_RegInvImage_has.
  - intros Hu.
    rewrite Manifest_ToRegInvImageTag_assign, RegInvImage_ToRegInvImageTag_assign.
    symmetry. apply assign_all_agreeing_eq.
    { apply RegInvImage_tag_writes_agreeing; [done|].
      by apply Manifest_as_RegInvImage_tags_unique. }
    intros [it d].
    rewrite (elem_of_RegInvImage_tag_writes _ _ _ _ Ho').
    rewrite (elem_of_Manifest_tag_writes _ _ _ _ Ho).
    apply exist_proper. intros ts.
    by rewrite Manifest_as_RegInvImage_has.
Qed.

Lemma Manifest_as_RegInvImage_views_witness :
  Manifest_names_distinct m_example
  ∧ Manifest_tags_unique m_example
  ∧ Manifest_ToRegInvImageDigest m_example (Manifest_keys m_example)
    = RegInvImage_ToRegInvImageDigest (Manifest_as_RegInvImage m_example)
        (RegInvImage_keys (Manifest_as_RegInvImage m_example))
  ∧ Manifest_ToRegInvImageTag m_example (Manifest_keys m_example)
    = RegInvImage_ToRegInvImageTag (Manifest_as_RegInvImage m_example)
        (RegInvImage_keys (Manifest_as_RegInvImage m_example)).
Proof.
  assert (Manifest_names_distinct m_example) as Hnd by by_decide.
  assert (Manifest_tags_unique m_example) as Hu by by_decide.
  destruct (Manifest_as_RegInvImage_views m_example (Manifest_keys m_example)
              (RegInvImage_keys (Manifest_as_RegInvImage m_example)))
    as [Hd Ht]; [exact Hnd|by_decide..|].
  split_and!; [exact Hnd|exact Hu|exact Hd|exact (Ht Hu)].
Defined.

(** C5, refuted as stated: the one image of [m_conflict] lists tag "t"
    under the digests "d1" and "d2"; walking its [Dmap] in the order d1,
    d2, [m.ToRegInvImageTag()] maps the tag to "d2", and walking the
    inventory of the manifest in the order d2, d1, the inventory's
    conversion maps it to "d1". *)
Lemma Manifest_as_RegInvImage_views_counterexample :
  Manifest_names_distinct m_conflict
  ∧ Manifest_order m_conflict om_d1_d2
  ∧ RegInvImage_order (Manifest_as_RegInvImage m_conflict) o_d2_d1
  ∧ Manifest_ToRegInvImageTag m_conflict om_d1_d2
      !! mkImageTag "img" "t" = Some "d2"
  ∧ RegInvImage_ToRegInvImageTag (Manifest_as_RegInvImage m_conflict) o_d2_d1
      !! mkImageTag "img" "t" = Some "d1"
  ∧ Manifest_ToRegInvImageTag m_conflict om_d1_d2
    ≠ RegInvImage_ToRegInvImageTag (Manifest_as_RegInvImage m_conflict) o_d2_d1.
Proof.
  split_and!; [by_decide..|vm_compute; reflexivity|vm_compute; reflexivity|].
  intros Heq. apply (f_equal (λ riit, riit !! mkImageTag "img" "t")) in Heq.
  vm_compute in Heq. discriminate.
Qed.

(** C10, as the code has it.  For every [Manifest] [m] and every key [it]
    that [m.ToRegInvImageTag()] maps to a digest [d], the key
    [ImageDigest{it.ImageName, d}] is present in [m.ToRegInvImageDigest()];
    when the images of [m] have pairwise-distinct names, its tag slice
    contains [it.Tag]. *)
Theorem Manifest_views_consistent (m : Manifest) (o1 o2 : ManifestOrder)
    (it : ImageTag) (d : Digest) :
  Manifest_order m o1 → Manifest_order m o2 →
  Manifest_ToRegInvImageTag m o1 !! it = Some d →
  is_Some (Manifest_ToRegInvImageDigest m o2 !! mkImageDigest (ImageTag_ImageName it) d)
  ∧ (Manifest_names_distinct m →
     ∃ ts, Manifest_ToRegInvImageDigest m o2 !! mkImageDigest (ImageTag_ImageName it) d
           = Some ts ∧ ImageTag_Tag it ∈ ts).
Proof.
  intros Ho1 Ho2 Hl.
  apply (Manifest_ToRegInvImageTag_Some _ _ _ _ Ho1) in Hl as (ts & Hhas & Ht).
  rewrite Manifest_ToRegInvImageDigest_assign. split.
  - apply assign_all_empty_is_Some. exists ts.
    by apply (elem_of_Manifest_digest_writes _ _ _ _ Ho2).
  - intros Hnd. exists ts. split; [|done].
    apply assign_all_agreeing.
    + intros id ts1 ts2 H1 H2.
      apply (elem_of_Manifest_digest_writes _ _ _ _ Ho2) in H1, H2.
      by eapply Manifest_has_agree.
    + by apply (elem_of_Manifest_digest_writes _ _ _ _ Ho2).
Qed.

Lemma Manifest_views_consistent_witness :
  Manifest_names_distinct m_example
  ∧ Manifest_ToRegInvImageTag m_example (Manifest_keys m_example)
      !! mkImageTag "img" "v2" = Some "d1"
  ∧ ∃ ts, Manifest_ToRegInvImageDigest m_example (Manifest_keys m_example)
            !! mkImageDigest "img" "d1" = Some ts
          ∧ "v2" ∈ ts.
Proof.
  assert (Manifest_names_distinct m_example) as Hnd by by_decide.
  assert (Manifest_ToRegInvImageTag m_example (Manifest_keys m_example)
            !! mkImageTag "img" "v2" = Some "d1") as Hl
    by (vm_compute; reflexivity).
  destruct (Manifest_views_consistent m_example (Manifest_keys m_example)
              (Manifest_keys m_example) (mkImageTag "img" "v2") "d1")
    as [_ Hts]; [by_decide|by_decide|exact Hl|].
  split_and!; [exact Hnd|exact Hl|exact (Hts Hnd)].
Defined.

(** C10, refuted as stated: [m_duplicate] lists image "img" twice, first
    with digest "d" tagged "t", then with digest "d" untagged.  The tag
    view maps ("img", "t") to "d", and the digest view maps ("img", "d")
    to the empty tag slice of the second entry. *)
Lemma Manifest_views_consistent_counterexample :
  Manifest_order m_duplicate om_duplicate
  ∧ Manifest_ToRegInvImageTag m_duplicate om_duplicate
      !! mkImageTag "img" "t" = Some "d"
  ∧ Manifest_ToRegInvImageDigest m_duplicate om_duplicate
      !! mkImageDigest "img" "d" = Some []
  ∧ ¬ ∃ ts, Manifest_ToRegInvImageDigest m_duplicate om_duplicate
              !! mkImageDigest "img" "d" = Some ts
            ∧ "t" ∈ ts.
Proof.
  assert (Manifest_ToRegInvImageDigest m_duplicate om_duplicate
            !! mkImageDigest "img" "d" = Some []) as Hl
    by (vm_compute; reflexivity).
  split_and!; [by_decide|vm_compute; reflexivity|exact Hl|].
  intros (ts & Hts & Ht). rewrite Hl in Hts. injection Hts as <-.
  by apply elem_of_nil in Ht.
Qed.

Lemma RegInvImage_images_nonempty_sub ri1 ri2 o1 o2 :
  RegInvImage_images_nonempty ri1 →
  RegInvImage_order ri1 o1 → RegInvImage_order ri2 o2 →
  RegInvImage_ToRegInvImageDigest ri1 o1 = RegInvImage_ToRegInvImageDigest ri2 o2 →
  ∀ i dt1, ri1 !! i = Some dt1 → ri2 !! i = Some dt1.
Proof.
  intros Hne Ho1 Ho2 Heq i dt1 Hi1.
  assert (∀ d, dt1 !! d = ri2 !! i ≫= (λ dt, dt !! d)) as Hd.
  { intros d.
    rewrite <-(RegInvImage_ToRegInvImageDigest_lookup ri2 o2 i d Ho2), <-Heq.
    rewrite (RegInvImage_ToRegInvImageDigest_lookup ri1 o1 i d Ho1).
    by rewrite Hi1. }
  destruct (map_choose dt1 (Hne _ _ Hi1)) as (d0 & ts0 & Hd0).
  destruct (ri2 !! i) as [dt2|] eqn:Hi2.
  - f_equal. apply map_eq. intros d. by rewrite Hd.
  - rewrite Hd in Hd0. done.
Qed.

(** Two inventories with images that have digests, equal tag views and
    different digests. *)
Lemma RegInvImage_ToRegInvImageTag_not_inj :
  ∃ (ri1 ri2 : RegInvImage) (o1 o2 : RegInvImageOrder),
    RegInvImage_images_nonempty ri1 ∧ RegInvImage_images_nonempty ri2
    ∧ RegInvImage_order ri1 o1 ∧ RegInvImage_order ri2 o2
    ∧ RegInvImage_ToRegInvImageTag ri1 o1 = RegInvImage_ToRegInvImageTag ri2 o2
    ∧ ri1 ≠ ri2.
Proof.
  exists ri_untagged, ri_untagged', o_untagged, o_untagged'.
  split_and!; [by_decide..|reflexivity|].
  intros Heq.
  apply (f_equal (λ ri : RegInvImage, ri !! "img" ≫= (λ dt, dt !! "d"))) in Heq.
  vm_compute in Heq. discriminate.
Qed.

(** C4, as the code has it.  The [RegInvImageDigest] view loses nothing of
    a [RegInvImage] in which every image has at least one digest: two such
    inventories with equal [RegInvImageDigest] views are equal, digests
    with zero tags included.  The [RegInvImageTag] view does lose
    information, also on such inventories. *)
Theorem RegInvImage_ToRegInvImageDigest_inj :
  (∀ (ri1 ri2 : RegInvImage) (o1 o2 : RegInvImageOrder),
     RegInvImage_images_nonempty ri1 → RegInvImage_images_nonempty ri2 →
     RegInvImage_order ri1 o1 → RegInvImage_order ri2 o2 →
     RegInvImage_ToRegInvImageDigest ri1 o1 = RegInvImage_ToRegInvImageDigest ri2 o2 →
     ri1 = ri2)
  ∧ ¬ (∀ (ri1 ri2 : RegInvImage) (o1 o2 : RegInvImageOrder),
         RegInvImage_images_nonempty ri1 → RegInvImage_images_nonempty ri2 →
         RegInvImage_order ri1 o1 → RegInvImage_order ri2 o2 →
         RegInvImage_ToRegInvImageTag ri1 o1 = RegInvImage_ToRegInvImageTag ri2 o2 →
         ri1 = ri2).
Proof.
  split.
  - intros ri1 ri2 o1 o2 Hne1 Hne2 Ho1 Ho2 Heq. apply map_eq. intros i.
    destruct (ri1 !! i) as [dt1|] eqn:Hi1.
    + symmetry. by apply (RegInvImage_images_nonempty_sub ri1 ri2 o1 o2).
    + destruct (ri2 !! i) as [dt2|] eqn:Hi2; [|done].
      apply (RegInvImage_images_nonempty_sub ri2 ri1 o2 o1) in Hi2; [|done..].
      congruence.
  - intros Hinj.
    destruct RegInvImage_ToRegInvImageTag_not_inj
      as (ri1 & ri2 & o1 & o2 & Hne1 & Hne2 & Ho1 & Ho2 & Heq & Hne).
    apply Hne. by apply (Hinj ri1 ri2 o1 o2).
Qed.

Lemma RegInvImage_ToRegInvImageDigest_inj_witness :
  RegInvImage_images_nonempty ri_example
  ∧ (RegInvImage_ToRegInvImageDigest ri_example (RegInvImage_keys ri_example)
     = RegInvImage_ToRegInvImageDigest ri_example (RegInvImage_keys ri_example)
     → ri_example = ri_example).
Proof.
  assert (RegInvImage_images_nonempty ri_example) as Hne by by_decide.
  split; [exact Hne|].
  apply (proj1 RegInvImage_ToRegInvImageDigest_inj ri_example ri_example
           (RegInvImage_keys ri_example) (RegInvImage_keys ri_example));
    [exact Hne|exact Hne|by_decide|by_decide].
Defined.

(** C4, refuted as stated: an image without digests leaves no trace in
    either view, so [ri_empty_image] and the empty inventory differ and
    have equal views; and the tag view of [ri_untagged], whose one digest
    has no tag, is that of [ri_empty_image]. *)
Lemma RegInvImage_views_not_injective :
  ri_empty_image ≠ ∅
  ∧ RegInvImage_order ri_empty_image o_empty_image
  ∧ RegInvImage_order ∅ []
  ∧ RegInvImage_ToRegInvImageDigest ri_empty_image o_empty_image
    = RegInvImage_ToRegInvImageDigest ∅ []
  ∧ RegInvImage_ToRegInvImageTag ri_empty_image o_empty_image
    = RegInvImage_ToRegInvImageTag ∅ []
  ∧ ri_untagged ≠ ri_empty_image
  ∧ RegInvImage_order ri_untagged o_untagged
  ∧ RegInvImage_ToRegInvImageTag ri_untagged o_untagged
    = RegInvImage_ToRegInvImageTag ri_empty_image o_empty_image.
Proof.
  split_and!; [|by_decide|by_decide|reflexivity|reflexivity| |by_decide|reflexivity].
  - intros Heq. apply (f_equal (λ ri : RegInvImage, ri !! "img")) in Heq.
    vm_compute in Heq. discriminate.
  - intros Heq.
    apply (f_equal (λ ri : RegInvImage, ri !! "img" ≫= (λ dt, dt !! "d"))) in Heq.
    vm_compute in Heq. discriminate.
Qed.

(** C6.  A [RegInvImageTag] holds at most one digest per [ImageTag] key,
    and the assignment [riit[it] = digest], the one operation the
    conversions perform on the view, keeps it so; in the view that any of
    the three conversions produces, every key that some digest of the
    source claims resolves to exactly one digest. *)
Theorem RegInvImageTag_one_digest_per_tag :
  (∀ riit : RegInvImageTag, one_digest_per_tag riit)
  ∧ (∀ (riit : RegInvImageTag) it d,
       one_digest_per_tag riit → one_digest_per_tag (<[it := d]> riit))
  ∧ (∀ (m : Manifest) (o : ManifestOrder) it,
       Manifest_order m o → (∃ d, Manifest_claims m it d) →
       exists! d, Manifest_ToRegInvImageTag m o !! it = Some d)
  ∧ (∀ (ri : RegInvImage) (o : RegInvImageOrder) it,
       RegInvImage_order ri o → (∃ d, RegInvImage_claims ri it d) →
       exists! d, RegInvImage_ToRegInvImageTag ri o !! it = Some d)
  ∧ (∀ (riid : RegInvImageDigest) (o : list ImageDigest) it,
       RegInvImageDigest_order riid o → (∃ d, RegInvImageDigest_claims riid it d) →
       exists! d, RegInvImageDigest_ToRegInvImageTag riid o !! it = Some d).
Proof.
  assert (∀ riit : RegInvImageTag, one_digest_per_tag riit) as Hone.
  { intros riit it d1 d2 H1 H2. congruence. }
  assert (∀ (riit : RegInvImageTag) it,
    is_Some (riit !! it) → exists! d, riit !! it = Some d) as Hex.
  { intros riit it [d Hd]. exists d. split; [done|]. intros d'. by apply Hone. }
  split_and!; [done|auto|..].
  - intros m o it Ho Hc. by apply Hex, Manifest_ToRegInvImageTag_is_Some.
  - intros ri o it Ho Hc. by apply Hex, RegInvImage_ToRegInvImageTag_is_Some.
  - intros riid o it Ho Hc. by apply Hex, RegInvImageDigest_ToRegInvImageTag_is_Some.
Qed.

Lemma RegInvImageTag_one_digest_per_tag_witness :
  exists! d, RegInvImage_ToRegInvImageTag ri_conflict o_d1_d2
               !! mkImageTag "img" "t" = Some d.
Proof.
  destruct RegInvImageTag_one_digest_per_tag as (_ & _ & _ & Hri & _).
  apply (Hri ri_conflict o_d1_d2 (mkImageTag "img" "t")); [by_decide|].
  exists "d1", ["t"]. split; [|by_decide].
  apply RegInvImage_has_lookup. vm_compute. reflexivity.
Defined.

(** C2, as the code has it.  The conversions to [RegInvImageTag] have no
    error result: for every [Manifest] and every [RegInvImage], consistent
    or not, they return a map, in which every key that some digest claims
    in the source holds one of the digests that claim it: the digest of
    the last assignment [riit[it] = digest] to the key, which overwrites
    the earlier ones. *)
Theorem ToRegInvImageTag_no_error (it : ImageTag) :
  (∀ (m : Manifest) (o : ManifestOrder),
     Manifest_order m o → (∃ d, Manifest_claims m it d) →
     ∃ d, Manifest_ToRegInvImageTag m o !! it = Some d ∧ Manifest_claims m it d)
  ∧ (∀ (ri : RegInvImage) (o : RegInvImageOrder),
       RegInvImage_order ri o → (∃ d, RegInvImage_claims ri it d) →
       ∃ d, RegInvImage_ToRegInvImageTag ri o !! it = Some d
            ∧ RegInvImage_claims ri it d)
  ∧ (∀ (m : Manifest) (o : ManifestOrder) (l1 l2 : list (ImageTag * Digest)) d,
       Manifest_tag_writes m o = (l1 ++ (it, d) :: l2)%list → it ∉ l2.*1 →
       Manifest_ToRegInvImageTag m o !! it = Some d)
  ∧ (∀ (ri : RegInvImage) (o : RegInvImageOrder)
        (l1 l2 : list (ImageTag * Digest)) d,
       RegInvImage_tag_writes ri o = (l1 ++ (it, d) :: l2)%list → it ∉ l2.*1 →
       RegInvImage_ToRegInvImageTag ri o !! it = Some d).
Proof.
  split_and!.
  - intros m o Ho Hc.
    apply (Manifest_ToRegInvImageTag_is_Some _ _ _ Ho) in Hc as [d Hd].
    exists d. split; [done|]. by eapply Manifest_ToRegInvImageTag_Some.
  - intros ri o Ho Hc.
    apply (RegInvImage_ToRegInvImageTag_is_Some _ _ _ Ho) in Hc as [d Hd].
    exists d. split; [done|]. by eapply RegInvImage_ToRegInvImageTag_Some.
  - intros m o l1 l2 d Hw Hl2. rewrite Manifest_ToRegInvImageTag_assign, Hw.
    by apply assign_all_last_write.
  - intros ri o l1 l2 d Hw Hl2. rewrite RegInvImage_ToRegInvImageTag_assign, Hw.
    by apply assign_all_last_write.
Qed.

Lemma ToRegInvImageTag_no_error_witness :
  (∃ d, Manifest_ToRegInvImageTag m_conflict om_d1_d2 !! mkImageTag "img" "t"
        = Some d
        ∧ Manifest_claims m_conflict (mkImageTag "img" "t") d)
  ∧ (∃ d, RegInvImage_ToRegInvImageTag ri_conflict o_d1_d2 !! mkImageTag "img" "t"
          = Some d
          ∧ RegInvImage_claims ri_conflict (mkImageTag "img" "t") d).
Proof.
  destruct (ToRegInvImageTag_no_error (mkImageTag "img" "t")) as (Hm & Hri & _).
  split.
  - apply (Hm m_conflict om_d1_d2); [by_decide|].
    exists "d1", ["t"]. split; [|by_decide].
    exists (mkImage "img" {[ "d1" := ["t"]; "d2" := ["t"] ]}).
    split_and!; [constructor|reflexivity|vm_compute; reflexivity].
  - apply (Hri ri_conflict o_d1_d2); [by_decide|].
    exists "d1", ["t"]. split; [|by_decide].
    apply RegInvImage_has_lookup. vm_compute. reflexivity.
Defined.

(** C2, refuted as stated: in [ri_conflict] and in [m_conflict] the
    digests "d1" and "d2" both claim the key ("img", "t"); the conversions
    return a map all the same, in which the key holds "d2", the digest
    assigned last: "d1" was overwritten. *)
Lemma ToRegInvImageTag_overwrites :
  RegInvImage_claims ri_conflict (mkImageTag "img" "t") "d1"
  ∧ RegInvImage_claims ri_conflict (mkImageTag "img" "t") "d2"
  ∧ RegInvImage_order ri_conflict o_d1_d2
  ∧ map_to_list (RegInvImage_ToRegInvImageTag ri_conflict o_d1_d2)
    = [(mkImageTag "img" "t", "d2")]
  ∧ Manifest_claims m_conflict (mkImageTag "img" "t") "d1"
  ∧ Manifest_claims m_conflict (mkImageTag "img" "t") "d2"
  ∧ Manifest_order m_conflict om_d1_d2
  ∧ map_to_list (Manifest_ToRegInvImageTag m_conflict om_d1_d2)
    = [(mkImageTag "img" "t", "d2")].
Proof.
  assert (∀ d, d = "d1" ∨ d = "d2" →
    RegInvImage_has ri_conflict "img" d ["t"]) as Hhas.
  { intros d [-> | ->]; apply RegInvImage_has_lookup; vm_compute; reflexivity. }
  assert (∀ d, d = "d1" ∨ d = "d2" →
    Manifest_has m_conflict "img" d ["t"]) as Hmhas.
  { intros d Hd. exists (mkImage "img" {[ "d1" := ["t"]; "d2" := ["t"] ]}).
    split_and!; [constructor|reflexivity|].
    destruct Hd as [-> | ->]; vm_compute; reflexivity. }
  split_and!.
  - exists ["t"]. split; [apply Hhas; by left|by_decide].
  - exists ["t"]. split; [apply Hhas; by right|by_decide].
  - by_decide.
  - vm_compute. reflexivity.
  - exists ["t"]. split; [apply Hmhas; by left|by_decide].
  - exists ["t"]. split; [apply Hmhas; by right|by_decide].
  - by_decide.
  - vm_compute. reflexivity.
Qed.

(** ** The conversions on the heap *)

Lemma range_fmap `{Countable K} {V W} (f : V → W) (m : gmap K V) (ks : list K) :
  range (f <$> m) ks = prod_map id f <$> range m ks.
Proof.
  unfold range. induction ks as [|k ks IH]; [done|].
  cbn [omap list_omap]. rewrite lookup_fmap, IH. by destruct (m !! k) as [v|].
Qed.

Section heap_steps.
Context (h : Heap.heap) (r : Heap.loc).

(** An object of a result type at [r] does not change what the heap
    holds of the source types, when [r] was not in use. *)
Lemma TagSlice_at_insert obj l :
  h !! r = None → result_object obj →
  Heap.TagSlice_at (<[r := obj]> h) l = Heap.TagSlice_at h l.
Proof.
  intros Hr Hobj. unfold Heap.TagSlice_at.
  destruct (decide (r = l)) as [<-|Hne].
  - rewrite lookup_insert_eq, Hr. by destruct obj.
  - by rewrite lookup_insert_ne.
Qed.

Lemma Images_at_insert obj l :
  h !! r = None → result_object obj →
  Heap.Images_at (<[r := obj]> h) l = Heap.Images_at h l.
Proof.
  intros Hr Hobj. unfold Heap.Images_at.
  destruct (decide (r = l)) as [<-|Hne].
  - rewrite lookup_insert_eq, Hr. by destruct obj.
  - by rewrite lookup_insert_ne.
Qed.

Lemma DigestTags_at_insert obj l :
  h !! r = None → result_object obj →
  Heap.DigestTags_at (<[r := obj]> h) l = Heap.DigestTags_at h l.
Proof.
  intros Hr Hobj. unfold Heap.DigestTags_at.
  destruct (decide (r = l)) as [<-|Hne].
  - rewrite lookup_insert_eq, Hr. by destruct obj.
  - by rewrite lookup_insert_ne.
Qed.

Lemma RegInvImage_at_insert obj l :
  h !! r = None → result_object obj →
  Heap.RegInvImage_at (<[r := obj]> h) l = Heap.RegInvImage_at h l.
Proof.
  intros Hr Hobj. unfold Heap.RegInvImage_at.
  destruct (decide (r = l)) as [<-|Hne].
  - rewrite lookup_insert_eq, Hr. by destruct obj.
  - by rewrite lookup_insert_ne.
Qed.

Lemma RegInvImageDigest_at_insert m l :
  h !! r = None →
  Heap.RegInvImageDigest_at (<[r := Heap.RegInvImageTagMap m]> h) l
  = Heap.RegInvImageDigest_at h l.
Proof.
  intros Hr. unfold Heap.RegInvImageDigest_at.
  destruct (decide (r = l)) as [<-|Hne].
  - by rewrite lookup_insert_eq, Hr.
  - by rewrite lookup_insert_ne.
Qed.

Hypothesis Hr : h !! r = None.

(** *** Loops that fill a [RegInvImageTag] at [r] *)

Lemma tags_loop i d (tags : list Tag) (riit : RegInvImageTag) :
  Heap.for_each tags (λ tag,
      Heap.assign_RegInvImageTag r (mkImageTag i tag) d)
    (<[r := Heap.RegInvImageTagMap riit]> h)
  = Some (tt, <[r := Heap.RegInvImageTagMap
                  (foldl (λ riit tag, <[mkImageTag i tag := d]> riit) riit tags)]> h).
Proof.
  revert riit. induction tags as [|tag tags IH]; intros riit; simpl; [done|].
  unfold mbind, Heap.M_bind, Heap.assign_RegInvImageTag at 1.
  rewrite lookup_insert_eq, insert_insert_eq. apply IH.
Qed.

Lemma entries_tag_loop i (entries : list (Digest * Heap.loc))
    (riit : RegInvImageTag) :
  Heap.for_each entries (λ '(digest, tagArray),
      tags ← Heap.read Heap.TagSlice_at tagArray;
      Heap.for_each tags (λ tag,
        Heap.assign_RegInvImageTag r (mkImageTag i tag) digest))
    (<[r := Heap.RegInvImageTagMap riit]> h)
  = Some (tt, <[r := Heap.RegInvImageTagMap
                  (foldl (λ riit '(digest, tagArray),
                      foldl (λ riit tag, <[mkImageTag i tag := digest]> riit)
                        riit tagArray)
                    riit (prod_map id (Heap.TagSlice_at h) <$> entries))]> h).
Proof.
  revert riit. induction entries as [|[d l] entries IH]; intros riit; simpl;
    [done|].
  unfold mbind at 1, Heap.M_bind at 1. unfold mbind at 1, Heap.M_bind at 1.
  unfold Heap.read at 1. rewrite TagSlice_at_insert by done.
  rewrite tags_loop. apply IH.
Qed.

(** *** Loops that fill a [RegInvImageDigest] at [r] *)

Lemma entries_digest_loop i (entries : list (Digest * Heap.loc))
    (riid : gmap ImageDigest Heap.loc) :
  Heap.for_each entries (λ '(digest, tagArray),
      Heap.assign_RegInvImageDigest r (mkImageDigest i digest) tagArray)
    (<[r := Heap.RegInvImageDigestMap riid]> h)
  = Some (tt, <[r := Heap.RegInvImageDigestMap
                  (foldl (λ riid '(digest, tagArray),
                      <[mkImageDigest i digest := tagArray]> riid)
                    riid entries)]> h).
Proof.
  revert riid. induction entries as [|[d l] entries IH]; intros riid; simpl;
    [done|].
  unfold mbind, Heap.M_bind, Heap.assign_RegInvImageDigest at 1.
  rewrite lookup_insert_eq, insert_insert_eq. apply IH.
Qed.

Lemma fmap_entries_digest_fold {V W} (f : V → W) i
    (entries : list (Digest * V)) (riid : gmap ImageDigest V) :
  f <$> foldl (λ riid '(digest, tagArray),
             <[mkImageDigest i digest := tagArray]> riid) riid entries
  = foldl (λ riid '(digest, tagArray),
             <[mkImageDigest i digest := tagArray]> riid)
      (f <$> riid) (prod_map id f <$> entries).
Proof.
  revert riid. induction entries as [|[d l] entries IH]; intros riid; simpl;
    [done|].
  by rewrite IH, fmap_insert.
Qed.

Lemma range_empty `{Countable K} {V} (ks : list K) :
  range (∅ : gmap K V) ks = [].
Proof.
  unfold range. induction ks as [|k ks IH]; [done|].
  cbn [omap list_omap]. by rewrite lookup_empty.
Qed.

(** *** The outer loops *)

Lemma RegInvImage_tag_loop (images : gmap ImageName Heap.loc)
    (o : RegInvImageOrder) (riit : RegInvImageTag) :
  Heap.for_each o (λ '(imageName, ds),
      match images !! imageName with
      | None => mret tt
      | Some l =>
          digestTags ← Heap.read Heap.DigestTags_at l;
          Heap.for_each (range digestTags ds) (λ '(digest, tagArray),
            tags ← Heap.read Heap.TagSlice_at tagArray;
            Heap.for_each tags (λ tag,
              Heap.assign_RegInvImageTag r (mkImageTag imageName tag) digest))
      end)
    (<[r := Heap.RegInvImageTagMap riit]> h)
  = Some (tt, <[r := Heap.RegInvImageTagMap
                  (foldl (λ riit '(imageName, ds),
                      foldl (λ riit '(digest, tagArray),
                          foldl (λ riit tag,
                              <[mkImageTag imageName tag := digest]> riit)
                            riit tagArray)
                        riit
                        (range (default ∅
                           ((Heap.abs_DigestTags h <$> images) !! imageName)) ds))
                    riit o)]> h).
Proof.
  revert riit. induction o as [|[i ds] o IH]; intros riit; simpl; [done|].
  unfold mbind at 1, Heap.M_bind at 1. rewrite lookup_fmap.
  destruct (images !! i) as [l|]; simpl.
  - unfold mbind at 1, Heap.M_bind at 1, Heap.read at 1.
    rewrite DigestTags_at_insert by done. rewrite entries_tag_loop.
    unfold Heap.abs_DigestTags. rewrite range_fmap. apply IH.
  - unfold mret at 1, Heap.M_ret at 1. rewrite range_empty. apply IH.
Qed.

Lemma RegInvImage_digest_loop (images : gmap ImageName Heap.loc)
    (o : RegInvImageOrder) (riid : gmap ImageDigest Heap.loc) :
  ∃ riid',
    Heap.for_each o (λ '(imageName, ds),
        match images !! imageName with
        | None => mret tt
        | Some l =>
            digestTags ← Heap.read Heap.DigestTags_at l;
            Heap.for_each (range digestTags ds) (λ '(digest, tagArray),
              Heap.assign_RegInvImageDigest r (mkImageDigest imageName digest)
                tagArray)
        end)
      (<[r := Heap.RegInvImageDigestMap riid]> h)
    = Some (tt, <[r := Heap.RegInvImageDigestMap riid']> h)
    ∧ Heap.TagSlice_at h <$> riid'
      = foldl (λ riid '(imageName, ds),
            foldl (λ riid '(digest, tagArray),
                <[mkImageDigest imageName digest := tagArray]> riid)
              riid
              (range (default ∅
                 ((Heap.abs_DigestTags h <$> images) !! imageName)) ds))
          (Heap.TagSlice_at h <$> riid) o.
Proof.
  revert riid. induction o as [|[i ds] o IH]; intros riid; simpl.
  { by exists riid. }
  unfold mbind at 1, Heap.M_bind at 1. rewrite lookup_fmap.
  destruct (images !! i) as [l|]; simpl.
  - unfold mbind at 1, Heap.M_bind at 1, Heap.read at 1.
    rewrite DigestTags_at_insert by done. rewrite entries_digest_loop.
    unfold Heap.abs_DigestTags. rewrite range_fmap.
    rewrite <-fmap_entries_digest_fold. apply IH.
  - unfold mret at 1, Heap.M_ret at 1. rewrite range_empty. apply IH.
Qed.

Lemma Manifest_tag_loop (zs : list (Heap.Image * list Digest))
    (riit : RegInvImageTag) :
  Heap.for_each zs (λ '(image, ds),
      dmap ← Heap.read Heap.DigestTags_at (Heap.Dmap image);
      Heap.for_each (range dmap ds) (λ '(digest, tagArray),
        tags ← Heap.read Heap.TagSlice_at tagArray;
        Heap.for_each tags (λ tag,
          Heap.assign_RegInvImageTag r
            (mkImageTag (Heap.Image_ImageName image) tag) digest)))
    (<[r := Heap.RegInvImageTagMap riit]> h)
  = Some (tt, <[r := Heap.RegInvImageTagMap
                  (foldl (λ riit '(image, ds),
                      foldl (λ riit '(digest, tagArray),
                          foldl (λ riit tag,
                              <[mkImageTag (Image_ImageName image) tag
                                  := digest]> riit)
                            riit tagArray)
                        riit (range (Dmap image) ds))
                    riit (prod_map (abs_Image h) id <$> zs))]> h).
Proof.
  revert riit. induction zs as [|[image ds] zs IH]; intros riit; simpl;
    [done|].
  unfold mbind at 1, Heap.M_bind at 1.
  unfold mbind at 1, Heap.M_bind at 1, Heap.read at 1.
  rewrite DigestTags_at_insert by done. rewrite entries_tag_loop.
  unfold Heap.abs_DigestTags. rewrite range_fmap. apply IH.
Qed.

Lemma Manifest_digest_loop (zs : list (Heap.Image * list Digest))
    (riid : gmap ImageDigest Heap.loc) :
  ∃ riid',
    Heap.for_each zs (λ '(image, ds),
        dmap ← Heap.read Heap.DigestTags_at (Heap.Dmap image);
        Heap.for_each (range dmap ds) (λ '(digest, tagArray),
          Heap.assign_RegInvImageDigest r
            (mkImageDigest (Heap.Image_ImageName image) digest) tagArray))
      (<[r := Heap.RegInvImageDigestMap riid]> h)
    = Some (tt, <[r := Heap.RegInvImageDigestMap riid']> h)
    ∧ Heap.TagSlice_at h <$> riid'
      = foldl (λ riid '(image, ds),
            foldl (λ riid '(digest, tagArray),
                <[mkImageDigest (Image_ImageName image) digest := tagArray]> riid)
              riid (range (Dmap image) ds))
          (Heap.TagSlice_at h <$> riid) (prod_map (abs_Image h) id <$> zs).
Proof.
  revert riid. induction zs as [|[image ds] zs IH]; intros riid; simpl.
  { by exists riid. }
  unfold mbind at 1, Heap.M_bind at 1.
  unfold mbind at 1, Heap.M_bind at 1, Heap.read at 1.
  rewrite DigestTags_at_insert by done. rewrite entries_digest_loop.
  unfold Heap.abs_DigestTags. rewrite range_fmap.
  rewrite <-fmap_entries_digest_fold. apply IH.
Qed.

Lemma RegInvImageDigest_tag_loop (entries : list (ImageDigest * Heap.loc))
    (riit : RegInvImageTag) :
  Heap.for_each entries (λ '(imageDigest, tagArray),
      tags ← Heap.read Heap.TagSlice_at tagArray;
      Heap.for_each tags (λ tag,
        Heap.assign_RegInvImageTag r
          (mkImageTag (ImageDigest_ImageName imageDigest) tag)
          (ImageDigest_Digest imageDigest)))
    (<[r := Heap.RegInvImageTagMap riit]> h)
  = Some (tt, <[r := Heap.RegInvImageTagMap
                  (foldl (λ riit '(imageDigest, tagArray),
                      foldl (λ riit tag,
                          <[mkImageTag (ImageDigest_ImageName imageDigest) tag
                              := ImageDigest_Digest imageDigest]> riit)
                        riit tagArray)
                    riit (prod_map id (Heap.TagSlice_at h) <$> entries))]> h).
Proof.
  revert riit. induction entries as [|[id l] entries IH]; intros riit; simpl;
    [done|].
  unfold mbind at 1, Heap.M_bind at 1. unfold mbind at 1, Heap.M_bind at 1.
  unfold Heap.read at 1. rewrite TagSlice_at_insert by done.
  rewrite tags_loop. apply IH.
Qed.
End heap_steps.

(** *** The calls *)

Lemma fresh_dom_None (h : Heap.heap) : h !! fresh (dom h) = None.
Proof. apply not_elem_of_dom, is_fresh. Qed.

Lemma Heap_Manifest_ToRegInvImageDigest_run h m o :
  ∃ riid,
    Heap.Manifest_ToRegInvImageDigest m o h
    = Some (fresh (dom h), <[fresh (dom h) := Heap.RegInvImageDigestMap riid]> h)
    ∧ Heap.TagSlice_at h <$> riid
      = Manifest_ToRegInvImageDigest (abs_Manifest h m) o.
Proof.
  pose proof (fresh_dom_None h) as Hr. set (r := fresh (dom h)) in *.
  destruct (Manifest_digest_loop h r Hr
              (zip (Heap.Images_at h (Heap.Images m)) o) ∅) as (riid & Hrun & Habs).
  exists riid. split.
  - unfold Heap.Manifest_ToRegInvImageDigest.
    unfold mbind at 1, Heap.M_bind at 1, Heap.make_RegInvImageDigest at 1.
    fold r. unfold mbind at 1, Heap.M_bind at 1, Heap.read at 1.
    rewrite Images_at_insert by done.
    unfold mbind at 1, Heap.M_bind at 1. by rewrite Hrun.
  - rewrite Habs, fmap_empty. unfold Manifest_ToRegInvImageDigest, abs_Manifest.
    simpl. by rewrite prod_map_zip, list_fmap_id.
Qed.

Lemma Heap_Manifest_ToRegInvImageTag_run h m o :
  Heap.Manifest_ToRegInvImageTag m o h
  = Some (fresh (dom h),
          <[fresh (dom h) := Heap.RegInvImageTagMap
              (Manifest_ToRegInvImageTag (abs_Manifest h m) o)]> h).
Proof.
  pose proof (fresh_dom_None h) as Hr. set (r := fresh (dom h)) in *.
  unfold Heap.Manifest_ToRegInvImageTag.
  unfold mbind at 1, Heap.M_bind at 1, Heap.make_RegInvImageTag at 1.
  fold r. unfold mbind at 1, Heap.M_bind at 1, Heap.read at 1.
  rewrite Images_at_insert by done.
  unfold mbind at 1, Heap.M_bind at 1. rewrite Manifest_tag_loop by done.
  unfold Manifest_ToRegInvImageTag, abs_Manifest. simpl.
  by rewrite prod_map_zip, list_fmap_id.
Qed.

Lemma Heap_RegInvImage_ToRegInvImageDigest_run h ri o :
  ∃ riid,
    Heap.RegInvImage_ToRegInvImageDigest ri o h
    = Some (fresh (dom h), <[fresh (dom h) := Heap.RegInvImageDigestMap riid]> h)
    ∧ Heap.TagSlice_at h <$> riid
      = RegInvImage_ToRegInvImageDigest (Heap.abs_RegInvImage h ri) o.
Proof.
  pose proof (fresh_dom_None h) as Hr. set (r := fresh (dom h)) in *.
  destruct (RegInvImage_digest_loop h r Hr (Heap.RegInvImage_at h ri) o ∅)
    as (riid & Hrun & Habs).
  exists riid. split.
  - unfold Heap.RegInvImage_ToRegInvImageDigest.
    unfold mbind at 1, Heap.M_bind at 1, Heap.make_RegInvImageDigest at 1.
    fold r. unfold mbind at 1, Heap.M_bind at 1, Heap.read at 1.
    rewrite RegInvImage_at_insert by done.
    unfold mbind at 1, Heap.M_bind at 1. by rewrite Hrun.
  - by rewrite Habs, fmap_empty.
Qed.

Lemma Heap_RegInvImage_ToRegInvImageTag_run h ri o :
  Heap.RegInvImage_ToRegInvImageTag ri o h
  = Some (fresh (dom h),
          <[fresh (dom h) := Heap.RegInvImageTagMap
              (RegInvImage_ToRegInvImageTag (Heap.abs_RegInvImage h ri) o)]> h).
Proof.
  pose proof (fresh_dom_None h) as Hr. set (r := fresh (dom h)) in *.
  unfold Heap.RegInvImage_ToRegInvImageTag.
  unfold mbind at 1, Heap.M_bind at 1, Heap.make_RegInvImageTag at 1.
  fold r. unfold mbind at 1, Heap.M_bind at 1, Heap.read at 1.
  rewrite RegInvImage_at_insert by done.
  unfold mbind at 1, Heap.M_bind at 1. by rewrite RegInvImage_tag_loop.
Qed.

Lemma Heap_RegInvImageDigest_ToRegInvImageTag_run h riid o :
  Heap.RegInvImageDigest_ToRegInvImageTag riid o h
  = Some (fresh (dom h),
          <[fresh (dom h) := Heap.RegInvImageTagMap
              (RegInvImageDigest_ToRegInvImageTag
                 (Heap.abs_RegInvImageDigest h riid) o)]> h).
Proof.
  pose proof (fresh_dom_None h) as Hr. set (r := fresh (dom h)) in *.
  unfold Heap.RegInvImageDigest_ToRegInvImageTag.
  unfold mbind at 1, Heap.M_bind at 1, Heap.make_RegInvImageTag at 1.
  fold r. unfold mbind at 1, Heap.M_bind at 1, Heap.read at 1.
  rewrite RegInvImageDigest_at_insert by done.
  unfold mbind at 1, Heap.M_bind at 1.
  rewrite RegInvImageDigest_tag_loop by done.
  unfold RegInvImageDigest_ToRegInvImageTag, Heap.abs_RegInvImageDigest.
  by rewrite range_fmap.
Qed.

Lemma Heap_pure_intro (c : Heap.M Heap.loc) :
  (∀ h, ∃ obj, c h = Some (fresh (dom h), <[fresh (dom h) := obj]> h)) →
  Heap.pure c.
Proof.
  intros Hc h. destruct (Hc h) as [obj Hrun].
  pose proof (fresh_dom_None h) as Hr.
  exists (fresh (dom h)), (<[fresh (dom h) := obj]> h). split_and!.
  - done.
  - intros l obj' Hl. rewrite lookup_insert_ne; [done|]. congruence.
  - apply is_fresh.
  - rewrite dom_insert_L. set_solver.
Qed.

(** C7.  Each of the five conversions returns, leaves every object that
    was in the heap as it was (the receiver's maps, the tag slices they
    hold and everything else), and adds to the heap the one map it
    returns, at an address that was not in use. *)
Theorem conversions_pure :
  (∀ m o, Heap.pure (Heap.Manifest_ToRegInvImageDigest m o))
  ∧ (∀ m o, Heap.pure (Heap.Manifest_ToRegInvImageTag m o))
  ∧ (∀ ri o, Heap.pure (Heap.RegInvImage_ToRegInvImageDigest ri o))
  ∧ (∀ ri o, Heap.pure (Heap.RegInvImage_ToRegInvImageTag ri o))
  ∧ (∀ riid o, Heap.pure (Heap.RegInvImageDigest_ToRegInvImageTag riid o)).
Proof.
  split_and!; intros src o; apply Heap_pure_intro; intros h.
  - destruct (Heap_Manifest_ToRegInvImageDigest_run h src o) as (riid & ? & _).
    eauto.
  - rewrite Heap_Manifest_ToRegInvImageTag_run. eauto.
  - destruct (Heap_RegInvImage_ToRegInvImageDigest_run h src o) as (riid & ? & _).
    eauto.
  - rewrite Heap_RegInvImage_ToRegInvImageTag_run. eauto.
  - rewrite Heap_RegInvImageDigest_ToRegInvImageTag_run. eauto.
Qed.

Lemma abs_RegInvImageDigest_result h riid :
  Heap.abs_RegInvImageDigest
    (<[fresh (dom h) := Heap.RegInvImageDigestMap riid]> h) (fresh (dom h))
  = Heap.TagSlice_at h <$> riid.
Proof.
  unfold Heap.abs_RegInvImageDigest, Heap.RegInvImageDigest_at.
  rewrite lookup_insert_eq. apply map_fmap_ext. intros id l _.
  apply TagSlice_at_insert; [apply fresh_dom_None|done].
Qed.

Lemma RegInvImageTag_at_result h riit :
  Heap.RegInvImageTag_at
    (<[fresh (dom h) := Heap.RegInvImageTagMap riit]> h) (fresh (dom h))
  = riit.
Proof. unfold Heap.RegInvImageTag_at. by rewrite lookup_insert_eq. Qed.

(** The conversions on the heap compute the conversions on values: the
    map a call returns stands for the conversion of the value its
    receiver stands for. *)
Theorem heap_conversions_agree (h : Heap.heap) :
  (∀ m o, ∃ r h',
     Heap.Manifest_ToRegInvImageDigest m o h = Some (r, h')
     ∧ Heap.abs_RegInvImageDigest h' r
       = Manifest_ToRegInvImageDigest (abs_Manifest h m) o)
  ∧ (∀ m o, ∃ r h',
       Heap.Manifest_ToRegInvImageTag m o h = Some (r, h')
       ∧ Heap.RegInvImageTag_at h' r
         = Manifest_ToRegInvImageTag (abs_Manifest h m) o)
  ∧ (∀ ri o, ∃ r h',
       Heap.RegInvImage_ToRegInvImageDigest ri o h = Some (r, h')
       ∧ Heap.abs_RegInvImageDigest h' r
         = RegInvImage_ToRegInvImageDigest (Heap.abs_RegInvImage h ri) o)
  ∧ (∀ ri o, ∃ r h',
       Heap.RegInvImage_ToRegInvImageTag ri o h = Some (r, h')
       ∧ Heap.RegInvImageTag_at h' r
         = RegInvImage_ToRegInvImageTag (Heap.abs_RegInvImage h ri) o)
  ∧ (∀ riid o, ∃ r h',
       Heap.RegInvImageDigest_ToRegInvImageTag riid o h = Some (r, h')
       ∧ Heap.RegInvImageTag_at h' r
         = RegInvImageDigest_ToRegInvImageTag
             (Heap.abs_RegInvImageDigest h riid) o).
Proof.
  split_and!; intros src o.
  - destruct (Heap_Manifest_ToRegInvImageDigest_run h src o) as (riid & -> & <-).
    eexists _, _. split; [done|]. apply abs_RegInvImageDigest_result.
  - rewrite Heap_Manifest_ToRegInvImageTag_run.
    eexists _, _. split; [done|]. apply RegInvImageTag_at_result.
  - destruct (Heap_RegInvImage_ToRegInvImageDigest_run h src o) as (riid & -> & <-).
    eexists _, _. split; [done|]. apply abs_RegInvImageDigest_result.
  - rewrite Heap_RegInvImage_ToRegInvImageTag_run.
    eexists _, _. split; [done|]. apply RegInvImageTag_at_result.
  - rewrite Heap_RegInvImageDigest_ToRegInvImageTag_run.
    eexists _, _. split; [done|]. apply RegInvImageTag_at_result.
Qed.

(** On [h_example] the call returns the new address 5; the view it made
    holds the addresses 3 and 4 of the tag slices of the source, which
    are as they were. *)
Example Heap_RegInvImage_ToRegInvImageDigest_example :
  Heap.abs_RegInvImage h_example 1%positive = ri_example
  ∧ ∃ h',
      Heap.RegInvImage_ToRegInvImageDigest 1%positive o_d1_d2 h_example
      = Some (5%positive, h')
      ∧ map_to_list (Heap.RegInvImageDigest_at h' 5%positive)
        = [(mkImageDigest "img" "d1", 3%positive);
           (mkImageDigest "img" "d2", 4%positive)]
      ∧ h' !! 3%positive = Some (Heap.TagArray ["v1"; "v2"])
      ∧ h' !! 4%positive = Some (Heap.TagArray []).
Proof.
  split; [vm_compute; reflexivity|].
  eexists. split_and!; vm_compute; reflexivity.
Qed.


(** * Further properties of the conversions *)

#[local] Open Scope list_scope.

(** ** Which assignment stays *)

Lemma assign_all_last_block `{Countable K} {V} (m : gmap K V)
    (l1 l2 : list (K * V)) k v :
  (k, v) ∈ l2 → (∀ v', (k, v') ∈ l2 → v' = v) →
  assign_all m (l1 ++ l2) !! k = Some v.
Proof.
  intros Hin Hagree. rewrite assign_all_app.
  by apply assign_all_lookup_agree.
Qed.

Lemma assign_all_segment `{Countable K} {V} (m : gmap K V)
    (l1 l2 l3 : list (K * V)) k v :
  (k, v) ∈ l2 → (∀ v', (k, v') ∈ l2 → v' = v) → k ∉ l3.*1 →
  assign_all m (l1 ++ l2 ++ l3) !! k = Some v.
Proof.
  intros Hin Hagree Hk. rewrite app_assoc, assign_all_app.
  rewrite assign_all_lookup_notin by done.
  by apply assign_all_last_block.
Qed.

Lemma move_last_perm `{EqDecision A} (x : A) (l : list A) :
  NoDup l → x ∈ l → move_last x l ≡ₚ l.
Proof.
  intros Hnd Hx. unfold move_last. apply NoDup_Permutation; [|done|].
  - apply NoDup_app. split_and!.
    + by apply NoDup_filter.
    + intros y Hy Hy'. apply list_elem_of_filter in Hy as [Hne _].
      apply list_elem_of_singleton in Hy'. done.
    + apply NoDup_singleton.
  - intros y. rewrite elem_of_app, list_elem_of_filter, list_elem_of_singleton.
    destruct (decide (y = x)) as [->|Hne]; naive_solver.
Qed.

Lemma keys_NoDup `{Countable K} {V} (m : gmap K V) : NoDup (keys m).
Proof. apply NoDup_fst_map_to_list. Qed.

Lemma elem_of_keys `{Countable K} {V} (m : gmap K V) k :
  k ∈ keys m ↔ is_Some (m !! k).
Proof. apply key_order_elem_of, key_order_keys. Qed.

Lemma key_order_move_last `{Countable K} {V} (m : gmap K V) k :
  is_Some (m !! k) → key_order m (move_last k (keys m)).
Proof.
  intros Hk. unfold key_order. fold (keys m).
  apply move_last_perm; [apply keys_NoDup|by apply elem_of_keys].
Qed.

Lemma range_app `{Countable K} {V} (m : gmap K V) (ks1 ks2 : list K) :
  range m (ks1 ++ ks2) = range m ks1 ++ range m ks2.
Proof. apply omap_app. Qed.

Lemma range_singleton `{Countable K} {V} (m : gmap K V) k v :
  m !! k = Some v → range m [k] = [(k, v)].
Proof. intros Hk. unfold range. simpl. by rewrite Hk. Qed.

(** ** [RegInvImage.ToRegInvImageTag]: any digest that lists a tag can
    be the one that stays *)

Lemma RegInvImage_order_last_valid ri i d digestTags :
  ri !! i = Some digestTags → is_Some (digestTags !! d) →
  RegInvImage_order ri (RegInvImage_order_last ri i d).
Proof.
  intros Hi Hd. unfold RegInvImage_order, RegInvImage_order_last. split.
  - rewrite <-list_fmap_compose.
    rewrite (list_fmap_ext _ id) by done. rewrite list_fmap_id.
    by apply key_order_move_last.
  - apply Forall_forall. intros p Hp.
    apply list_elem_of_fmap in Hp as (j & -> & _). simpl.
    destruct (decide (j = i)) as [->|_]; [|apply key_order_keys].
    rewrite Hi. simpl. by apply key_order_move_last.
Qed.

Lemma RegInvImage_order_last_lookup ri i d digestTags ts t :
  ri !! i = Some digestTags → digestTags !! d = Some ts → t ∈ ts →
  RegInvImage_ToRegInvImageTag ri (RegInvImage_order_last ri i d)
    !! mkImageTag i t = Some d.
Proof.
  intros Hi Hd Ht. rewrite RegInvImage_ToRegInvImageTag_assign.
  unfold RegInvImage_tag_writes, RegInvImage_order_last, move_last.
  rewrite fmap_app, bind_app. simpl.
  rewrite decide_True by done. rewrite Hi. simpl.
  rewrite range_app, (range_singleton _ _ _ Hd).
  unfold tag_writes at 2. rewrite bind_app, app_nil_r. simpl.
  rewrite app_nil_r, app_assoc.
  apply assign_all_last_block.
  - apply list_elem_of_fmap. by exists t.
  - intros d' Hd'. apply list_elem_of_fmap in Hd' as (t' & Heq & _).
    by simplify_eq.
Qed.

Lemma RegInvImage_ToRegInvImageTag_any_claimant_aux (ri : RegInvImage)
    (it : ImageTag) (d : Digest) :
  RegInvImage_claims ri it d →
  ∃ o, RegInvImage_order ri o ∧ RegInvImage_ToRegInvImageTag ri o !! it = Some d.
Proof.
  destruct it as [i t]. intros (ts & (dt & Hi & Hd) & Ht). simpl in *.
  exists (RegInvImage_order_last ri i d). split.
  - by apply (RegInvImage_order_last_valid ri i d dt).
  - by apply (RegInvImage_order_last_lookup ri i d dt ts).
Qed.

(** X1.  The digests that [ri.ToRegInvImageTag()] can hold at a key [it],
    over the orders in which Go may walk the maps, are exactly the digests
    that list tag [it.Tag] for image [it.ImageName] in [ri]. *)
Theorem RegInvImage_ToRegInvImageTag_possible_digests (ri : RegInvImage)
    (it : ImageTag) (d : Digest) :
  (∃ o, RegInvImage_order ri o ∧ RegInvImage_ToRegInvImageTag ri o !! it = Some d)
  ↔ RegInvImage_claims ri it d.
Proof.
  split.
  - intros (o & Ho & Hl). by apply (RegInvImage_ToRegInvImageTag_Some ri o).
  - apply RegInvImage_ToRegInvImageTag_any_claimant_aux.
Qed.

Lemma RegInvImage_tags_unique_intro (ri : RegInvImage) :
  (∀ it d1 d2, RegInvImage_claims ri it d1 → RegInvImage_claims ri it d2 → d1 = d2) →
  RegInvImage_tags_unique ri.
Proof.
  intros Hagree i dt Hi d1 ts1 Hd1 d2 ts2 Hd2. simpl.
  apply Forall_forall. intros t Ht1 Ht2.
  apply (Hagree (mkImageTag i t)).
  - exists ts1. split; [by exists dt|done].
  - exists ts2. split; [by exists dt|done].
Qed.

(** X2.  The result of [ri.ToRegInvImageTag()] is the same for every order
    in which Go may walk the maps exactly when [ri] lists no tag under two
    digests of one image. *)
Theorem RegInvImage_ToRegInvImageTag_order_independent_iff (ri : RegInvImage) :
  (∀ o1 o2, RegInvImage_order ri o1 → RegInvImage_order ri o2 →
     RegInvImage_ToRegInvImageTag ri o1 = RegInvImage_ToRegInvImageTag ri o2)
  ↔ RegInvImage_tags_unique ri.
Proof.
  split.
  - intros Hind. apply RegInvImage_tags_unique_intro. intros it d1 d2 H1 H2.
    destruct (RegInvImage_ToRegInvImageTag_any_claimant_aux ri it d1 H1)
      as (o1 & Ho1 & Hl1).
    destruct (RegInvImage_ToRegInvImageTag_any_claimant_aux ri it d2 H2)
      as (o2 & Ho2 & Hl2).
    rewrite (Hind o1 o2 Ho1 Ho2) in Hl1. congruence.
  - intros Hu o1 o2 Ho1 Ho2. rewrite !RegInvImage_ToRegInvImageTag_assign.
    apply assign_all_agreeing_eq.
    { by apply RegInvImage_tag_writes_agreeing. }
    intros [it d]. by rewrite !elem_of_RegInvImage_tag_writes.
Qed.

(** ** [Manifest.ToRegInvImageTag] *)

Lemma Manifest_claims_Image_claims m it d :
  Manifest_claims m it d ↔ ∃ image, image ∈ Images m ∧ Image_claims image it d.
Proof.
  unfold Manifest_claims, Manifest_has, Image_claims. split.
  - intros (ts & (image & Hin & Hn & Hd) & Ht). exists image. eauto 10.
  - intros (image & Hin & Hn & ts & Hd & Ht). exists ts. eauto 10.
Qed.

(** X3.  [m.ToRegInvImageTag()] has the key [it] exactly when some entry of
    [m.Images] named [it.ImageName] lists tag [it.Tag] under some digest,
    and the digest it holds there is one that does. *)
Theorem Manifest_ToRegInvImageTag_spec (m : Manifest) (o : ManifestOrder)
    (it : ImageTag) :
  Manifest_order m o →
  (is_Some (Manifest_ToRegInvImageTag m o !! it)
   ↔ ∃ image d, image ∈ Images m ∧ Image_claims image it d)
  ∧ (∀ d, Manifest_ToRegInvImageTag m o !! it = Some d →
          ∃ image, image ∈ Images m ∧ Image_claims image it d).
Proof.
  intros Ho. split.
  - rewrite (Manifest_ToRegInvImageTag_is_Some _ _ _ Ho). split.
    + intros (d & Hc). apply Manifest_claims_Image_claims in Hc as (image & ? & ?).
      by exists image, d.
    + intros (image & d & ? & ?). exists d. apply Manifest_claims_Image_claims.
      by exists image.
  - intros d Hl. apply Manifest_claims_Image_claims.
    by apply (Manifest_ToRegInvImageTag_Some m o).
Qed.

Lemma Manifest_tag_writes_app (images1 images2 : list Image)
    (o1 o2 : ManifestOrder) rs sa :
  length images1 = length o1 →
  Manifest_tag_writes (mkManifest rs sa (images1 ++ images2)) (o1 ++ o2)
  = Manifest_tag_writes (mkManifest rs sa images1) o1
    ++ Manifest_tag_writes (mkManifest rs sa images2) o2.
Proof.
  intros Hlen. unfold Manifest_tag_writes. simpl.
  rewrite zip_with_app by done. apply bind_app.
Qed.

Lemma elem_of_Image_tag_writes image ds it d :
  key_order (Dmap image) ds →
  (it, d) ∈ tag_writes (Image_ImageName image) (range (Dmap image) ds)
  ↔ Image_claims image it d.
Proof.
  intros Hds. rewrite elem_of_tag_writes. unfold Image_claims.
  split.
  - intros (Hn & ts & Hin & Ht).
    apply (elem_of_range_order _ _ _ _ Hds) in Hin. eauto.
  - intros (Hn & ts & Hd & Ht). split; [done|]. exists ts. split; [|done].
    by apply (elem_of_range_order _ _ _ _ Hds).
Qed.

Lemma assign_all_lookup_in `{Countable K} {V} (m : gmap K V)
    (l : list (K * V)) k :
  k ∈ l.*1 → ∃ v, assign_all m l !! k = Some v ∧ (k, v) ∈ l.
Proof.
  revert m. induction l as [|[k' v'] l IH]; intros m Hk.
  { by apply elem_of_nil in Hk. }
  destruct (decide (k ∈ l.*1)) as [Hin|Hnin].
  - destruct (IH (<[k':=v']> m) Hin) as (v & Hv & Hl).
    exists v. split; [done|by right].
  - rewrite fmap_cons in Hk. apply elem_of_cons in Hk as [->|?]; [|done].
    exists v'. split; [|by left]. simpl.
    change (assign_all (<[k':=v']> m) l !! k' = Some v').
    rewrite assign_all_lookup_notin by done. apply lookup_insert_eq.
Qed.

(** X4.  In [m.ToRegInvImageTag()] a later entry of [m.Images] beats an
    earlier one, whatever the order in which Go walks the maps: the digest
    at a key [it] is one under which the last entry that lists tag
    [it.Tag] for image [it.ImageName] lists it. *)
Theorem Manifest_ToRegInvImageTag_later_entry_wins (m : Manifest)
    (o : ManifestOrder) (before after : list Image) (image : Image)
    (it : ImageTag) :
  Manifest_order m o →
  Images m = before ++ image :: after →
  (∃ d, Image_claims image it d) →
  (∀ image' d', image' ∈ after → ¬ Image_claims image' it d') →
  ∃ d, Manifest_ToRegInvImageTag m o !! it = Some d ∧ Image_claims image it d.
Proof.
  intros Ho Himgs [d0 Hc] Hafter. destruct m as [rs sa images].
  unfold Manifest_order in Ho. simpl in *. subst images.
  apply Forall2_app_inv_l in Ho as (o1 & o2' & Ho1 & Ho2 & ->).
  apply Forall2_cons_inv_l in Ho2 as (ds & o2 & Hds & Ho2 & ->).
  rewrite Manifest_ToRegInvImageTag_assign.
  rewrite Manifest_tag_writes_app by by eapply Forall2_length.
  change (image :: after) with ([image] ++ after).
  change (ds :: o2) with ([ds] ++ o2).
  rewrite Manifest_tag_writes_app by done.
  rewrite app_assoc, assign_all_app.
  rewrite assign_all_lookup_notin.
  - rewrite assign_all_app. unfold Manifest_tag_writes at 2. simpl.
    rewrite app_nil_r.
    destruct (assign_all_lookup_in
                (assign_all ∅ (Manifest_tag_writes (mkManifest rs sa before) o1))
                (tag_writes (Image_ImageName image) (range (Dmap image) ds)) it)
      as (d & Hd & Hin).
    { apply list_elem_of_fmap. exists (it, d0). split; [done|].
      by apply elem_of_Image_tag_writes. }
    exists d. split; [done|]. by apply (elem_of_Image_tag_writes image ds).
  - intros Hin. apply list_elem_of_fmap in Hin as ([it' d'] & -> & Hin).
    assert (Manifest_order (mkManifest rs sa after) o2) as Ho' by done.
    apply (elem_of_Manifest_tag_writes _ _ _ _ Ho') in Hin.
    apply (Manifest_claims_Image_claims (mkManifest rs sa after)) in Hin
      as (image' & Hin' & Hc').
    by apply (Hafter image' d').
Qed.

(** ** [Manifest.ToRegInvImageDigest] *)

Lemma Manifest_digest_writes_app (images1 images2 : list Image)
    (o1 o2 : ManifestOrder) rs sa :
  length images1 = length o1 →
  Manifest_digest_writes (mkManifest rs sa (images1 ++ images2)) (o1 ++ o2)
  = Manifest_digest_writes (mkManifest rs sa images1) o1
    ++ Manifest_digest_writes (mkManifest rs sa images2) o2.
Proof.
  intros Hlen. unfold Manifest_digest_writes. simpl.
  rewrite zip_with_app by done. apply bind_app.
Qed.

Lemma elem_of_Image_digest_writes image ds id ts :
  key_order (Dmap image) ds →
  (id, ts) ∈ digest_writes (Image_ImageName image) (range (Dmap image) ds)
  ↔ ImageDigest_ImageName id = Image_ImageName image
    ∧ Dmap image !! ImageDigest_Digest id = Some ts.
Proof.
  intros Hds. rewrite elem_of_digest_writes.
  by rewrite (elem_of_range_order _ _ _ _ Hds).
Qed.

Lemma Manifest_ToRegInvImageDigest_last_entry (images : list Image)
    (o : ManifestOrder) rs sa (before after : list Image) (image : Image)
    (d : Digest) (ts : TagSlice) :
  Manifest_order (mkManifest rs sa images) o →
  images = before ++ image :: after →
  Dmap image !! d = Some ts →
  (∀ image', image' ∈ after →
     Image_ImageName image' = Image_ImageName image → Dmap image' !! d = None) →
  Manifest_ToRegInvImageDigest (mkManifest rs sa images) o
    !! mkImageDigest (Image_ImageName image) d = Some ts.
Proof.
  intros Ho -> Hd Hafter. unfold Manifest_order in Ho. simpl in Ho.
  apply Forall2_app_inv_l in Ho as (o1 & o2' & Ho1 & Ho2 & ->).
  apply Forall2_cons_inv_l in Ho2 as (ds & o2 & Hds & Ho2 & ->).
  rewrite Manifest_ToRegInvImageDigest_assign.
  rewrite Manifest_digest_writes_app by by eapply Forall2_length.
  change (image :: after) with ([image] ++ after).
  change (ds :: o2) with ([ds] ++ o2).
  rewrite Manifest_digest_writes_app by done.
  apply assign_all_segment.
  - unfold Manifest_digest_writes. simpl. rewrite app_nil_r.
    by apply elem_of_Image_digest_writes.
  - intros ts' Hts'. unfold Manifest_digest_writes in Hts'. simpl in Hts'.
    rewrite app_nil_r in Hts'.
    apply (elem_of_Image_digest_writes _ _ _ _ Hds) in Hts' as [_ Hts'].
    simpl in Hts'. congruence.
  - intros Hin. apply list_elem_of_fmap in Hin as ([id' ts'] & Heq & Hin).
    simpl in Heq. subst id'.
    assert (Manifest_order (mkManifest rs sa after) o2) as Ho' by done.
    apply (elem_of_Manifest_digest_writes _ _ _ _ Ho') in Hin
      as (image' & Hin' & Hn' & Hd'). simpl in *.
    by rewrite (Hafter image' Hin' Hn') in Hd'.
Qed.

(** X5.  In [m.ToRegInvImageDigest()] a later entry of [m.Images] beats an
    earlier one of the same name: the key (i, d) holds the tag slice that
    the last entry named [i] with digest [d] gives it, whatever the order
    in which Go walks the maps. *)
Theorem Manifest_ToRegInvImageDigest_later_entry_wins (m : Manifest)
    (o : ManifestOrder) (before after : list Image) (image : Image)
    (d : Digest) (ts : TagSlice) :
  Manifest_order m o →
  Images m = before ++ image :: after →
  Dmap image !! d = Some ts →
  (∀ image', image' ∈ after →
     Image_ImageName image' = Image_ImageName image → Dmap image' !! d = None) →
  Manifest_ToRegInvImageDigest m o !! mkImageDigest (Image_ImageName image) d
  = Some ts.
Proof.
  destruct m as [rs sa images]. simpl. intros Ho Himgs.
  by apply (Manifest_ToRegInvImageDigest_last_entry images o rs sa before after).
Qed.

(** The last element of a list that satisfies a decidable property. *)
Lemma list_split_last_such {A} (P : A → Prop) `{∀ x, Decision (P x)}
    (l : list A) :
  Exists P l →
  ∃ before x after, l = before ++ x :: after ∧ P x ∧ Forall (λ y, ¬ P y) after.
Proof.
  induction l as [|y l IH]; intros Hex.
  { by apply Exists_nil in Hex. }
  destruct (decide (Exists P l)) as [Hl|Hl].
  - destruct (IH Hl) as (before & x & after & -> & Hx & Hafter).
    by exists (y :: before), x, after.
  - apply Exists_cons in Hex as [Hy|?]; [|done].
    exists [], y, l. split_and!; [done..|].
    by apply Forall_Exists_neg.
Qed.

(** X6.  The result of [m.ToRegInvImageDigest()] does not depend on the
    order in which Go walks the maps. *)
Theorem Manifest_ToRegInvImageDigest_order_independent (m : Manifest)
    (o1 o2 : ManifestOrder) :
  Manifest_order m o1 → Manifest_order m o2 →
  Manifest_ToRegInvImageDigest m o1 = Manifest_ToRegInvImageDigest m o2.
Proof.
  destruct m as [rs sa images]. intros Ho1 Ho2. apply map_eq. intros [i d].
  set (P := λ image : Image,
         Image_ImageName image = i ∧ is_Some (Dmap image !! d)).
  destruct (decide (Exists P images)) as [Hex|Hnex].
  - destruct (list_split_last_such P images Hex)
      as (before & image & after & Himgs & [<- [ts Hd]] & Hafter).
    rewrite Forall_forall in Hafter.
    assert (∀ image', image' ∈ after →
      Image_ImageName image' = Image_ImageName image → Dmap image' !! d = None)
      as Hafter'.
    { intros image' Hin Hn. apply eq_None_not_Some. intros Hsome.
      by apply (Hafter image' Hin). }
    rewrite (Manifest_ToRegInvImageDigest_last_entry images o1 rs sa
               before after image d ts) by done.
    by rewrite (Manifest_ToRegInvImageDigest_last_entry images o2 rs sa
                  before after image d ts).
  - assert (∀ o, Manifest_order (mkManifest rs sa images) o →
      Manifest_ToRegInvImageDigest (mkManifest rs sa images) o
        !! mkImageDigest i d = None) as Hnone.
    { intros o Ho. apply eq_None_not_Some.
      rewrite Manifest_ToRegInvImageDigest_assign, assign_all_empty_is_Some.
      intros (ts & Hin).
      apply (elem_of_Manifest_digest_writes _ _ _ _ Ho) in Hin
        as (image & Hin & Hn & Hd). simpl in *.
      apply Hnex, Exists_exists. exists image. split; [done|].
      split; [done|by exists ts]. }
    by rewrite !Hnone.
Qed.

(** ** The views of a [Manifest] compose *)

Lemma Manifest_digest_writes_agreeing m o :
  Manifest_names_distinct m → Manifest_order m o →
  agreeing (Manifest_digest_writes m o).
Proof.
  intros Hnd Ho id ts1 ts2 H1 H2.
  apply (elem_of_Manifest_digest_writes _ _ _ _ Ho) in H1, H2.
  by eapply Manifest_has_agree.
Qed.

Lemma Manifest_tag_writes_agreeing m o :
  Manifest_names_distinct m → Manifest_tags_unique m → Manifest_order m o →
  agreeing (Manifest_tag_writes m o).
Proof.
  intros Hnd Hu Ho it d1 d2 H1 H2.
  apply (elem_of_Manifest_tag_writes _ _ _ _ Ho) in H1, H2.
  by eapply Manifest_claims_agree.
Qed.

Lemma Manifest_ToRegInvImageDigest_has m o i d ts :
  Manifest_names_distinct m → Manifest_order m o →
  RegInvImageDigest_has (Manifest_ToRegInvImageDigest m o) i d ts
  ↔ Manifest_has m i d ts.
Proof.
  intros Hnd Ho. unfold RegInvImageDigest_has.
  rewrite Manifest_ToRegInvImageDigest_assign.
  rewrite assign_all_agreeing by by apply Manifest_digest_writes_agreeing.
  by rewrite (elem_of_Manifest_digest_writes _ _ _ _ Ho).
Qed.

(** X7.  For every [Manifest] whose entries have pairwise-distinct names
    and list no tag under two digests, converting it to
    [RegInvImageDigest] and that to [RegInvImageTag] gives the map that
    [m.ToRegInvImageTag()] gives, in whatever orders Go walks the maps. *)
Theorem Manifest_round_trip (m : Manifest) (o1 : ManifestOrder)
    (o2 : list ImageDigest) (o3 : ManifestOrder) :
  Manifest_names_distinct m → Manifest_tags_unique m →
  Manifest_order m o1 →
  RegInvImageDigest_order (Manifest_ToRegInvImageDigest m o1) o2 →
  Manifest_order m o3 →
  RegInvImageDigest_ToRegInvImageTag (Manifest_ToRegInvImageDigest m o1) o2
  = Manifest_ToRegInvImageTag m o3.
Proof.
  intros Hnd Hu Ho1 Ho2 Ho3.
  rewrite RegInvImageDigest_ToRegInvImageTag_assign, Manifest_ToRegInvImageTag_assign.
  symmetry. apply assign_all_agreeing_eq.
  { by apply Manifest_tag_writes_agreeing. }
  intros [it d].
  rewrite (elem_of_Manifest_tag_writes _ _ _ _ Ho3).
  rewrite (elem_of_RegInvImageDigest_tag_writes _ _ _ _ Ho2).
  apply exist_proper. intros ts.
  by rewrite (Manifest_ToRegInvImageDigest_has _ _ _ _ _ Hnd Ho1).
Qed.

(** ** [RegInvImageDigest.ToRegInvImageTag] *)

Lemma RegInvImageDigest_ToRegInvImageTag_any_claimant
    (riid : RegInvImageDigest) (it : ImageTag) (d : Digest) :
  RegInvImageDigest_claims riid it d →
  ∃ o, RegInvImageDigest_order riid o
       ∧ RegInvImageDigest_ToRegInvImageTag riid o !! it = Some d.
Proof.
  destruct it as [i t]. intros (ts & Hd & Ht).
  unfold RegInvImageDigest_has in Hd. simpl in *.
  exists (move_last (mkImageDigest i d) (keys riid)). split.
  - by apply key_order_move_last.
  - rewrite RegInvImageDigest_ToRegInvImageTag_assign.
    unfold RegInvImageDigest_tag_writes, move_last.
    rewrite range_app, (range_singleton _ _ _ Hd), bind_app. simpl.
    rewrite app_nil_r. apply assign_all_last_block.
    + apply list_elem_of_fmap. by exists t.
    + intros d' Hd'. apply list_elem_of_fmap in Hd' as (t' & Heq & _).
      by simplify_eq.
Qed.

(** X8.  The digests that [riid.ToRegInvImageTag()] can hold at a key
    [it], over the orders in which Go may walk the map, are exactly the
    digests [d] whose entry (it.ImageName, d) of [riid] lists [it.Tag]. *)
Theorem RegInvImageDigest_ToRegInvImageTag_possible_digests
    (riid : RegInvImageDigest) (it : ImageTag) (d : Digest) :
  (∃ o, RegInvImageDigest_order riid o
        ∧ RegInvImageDigest_ToRegInvImageTag riid o !! it = Some d)
  ↔ RegInvImageDigest_claims riid it d.
Proof.
  split.
  - intros (o & Ho & Hl).
    by apply (RegInvImageDigest_ToRegInvImageTag_Some riid o).
  - apply RegInvImageDigest_ToRegInvImageTag_any_claimant.
Qed.

(** X9.  The result of [riid.ToRegInvImageTag()] is the same for every
    order in which Go may walk the map exactly when no two entries of
    [riid] for one image with different digests list the same tag. *)
Theorem RegInvImageDigest_ToRegInvImageTag_order_independent_iff
    (riid : RegInvImageDigest) :
  (∀ o1 o2, RegInvImageDigest_order riid o1 → RegInvImageDigest_order riid o2 →
     RegInvImageDigest_ToRegInvImageTag riid o1
     = RegInvImageDigest_ToRegInvImageTag riid o2)
  ↔ (∀ it d1 d2, RegInvImageDigest_claims riid it d1 →
       RegInvImageDigest_claims riid it d2 → d1 = d2).
Proof.
  split.
  - intros Hind it d1 d2 H1 H2.
    destruct (RegInvImageDigest_ToRegInvImageTag_any_claimant riid it d1 H1)
      as (o1 & Ho1 & Hl1).
    destruct (RegInvImageDigest_ToRegInvImageTag_any_claimant riid it d2 H2)
      as (o2 & Ho2 & Hl2).
    rewrite (Hind o1 o2 Ho1 Ho2) in Hl1. congruence.
  - intros Hagree o1 o2 Ho1 Ho2.
    rewrite !RegInvImageDigest_ToRegInvImageTag_assign.
    apply assign_all_agreeing_eq.
    + intros it d1 d2 H1 H2.
      apply (elem_of_RegInvImageDigest_tag_writes _ _ _ _ Ho1) in H1, H2.
      by apply (Hagree it).
    + intros [it d]. by rewrite !elem_of_RegInvImageDigest_tag_writes.
Qed.

(** ** The two ways from [RegInvImage] to [RegInvImageTag] *)

Lemma filter_Forall_id {A} (P : A → Prop) `{∀ x, Decision (P x)} (l : list A) :
  Forall P l → filter P l = l.
Proof.
  induction 1 as [|x l Hx _ IH]; [done|].
  by rewrite filter_cons_True, IH.
Qed.

Lemma filter_Forall_nil {A} (P : A → Prop) `{∀ x, Decision (P x)} (l : list A) :
  Forall (λ x, ¬ P x) l → filter P l = [].
Proof.
  induction 1 as [|x l Hx _ IH]; [done|].
  by rewrite filter_cons_False.
Qed.

Section list_facts.
Context {A B C : Type}.

Lemma bind_bind (f : A → list B) (g : B → list C) (l : list A) :
  (l ≫= f) ≫= g = l ≫= (λ x, f x ≫= g).
Proof.
  induction l as [|x l IH]; [done|].
  by rewrite !bind_cons, bind_app, IH.
Qed.

Lemma filter_bind_block (P : B → Prop) `{∀ y, Decision (P y)}
    (Q : A → Prop) `{∀ x, Decision (Q x)} (f : A → list B) (l : list A) :
  (∀ x, x ∈ l → Q x → Forall P (f x)) →
  (∀ x, x ∈ l → ¬ Q x → Forall (λ y, ¬ P y) (f x)) →
  filter P (l ≫= f) = filter Q l ≫= f.
Proof.
  induction l as [|x l IH]; intros HQ HnQ; [done|].
  rewrite bind_cons, filter_app, IH.
  - destruct (decide (Q x)) as [Hx|Hx].
    + rewrite (filter_cons_True Q) by done. rewrite bind_cons. f_equal.
      apply filter_Forall_id, HQ; [by left|done].
    + rewrite (filter_cons_False Q) by done.
      rewrite filter_Forall_nil; [done|]. apply HnQ; [by left|done].
  - intros y Hy. apply HQ. by right.
  - intros y Hy. apply HnQ. by right.
Qed.

Lemma filter_fmap (f : A → B) (P : B → Prop) `{∀ y, Decision (P y)}
    (l : list A) :
  filter P (f <$> l) = f <$> filter (λ x, P (f x)) l.
Proof.
  induction l as [|x l IH]; [done|]. rewrite fmap_cons.
  destruct (decide (P (f x))) as [Hx|Hx].
  - rewrite (filter_cons_True P), (filter_cons_True (λ x, P (f x))) by done.
    by rewrite fmap_cons, IH.
  - by rewrite (filter_cons_False P), (filter_cons_False (λ x, P (f x))) by done.
Qed.
End list_facts.

Lemma filter_eq_NoDup `{EqDecision A} (x : A) (l : list A) :
  NoDup l → filter (λ y, y = x) l = if decide (x ∈ l) then [x] else [].
Proof.
  induction 1 as [|y l Hy Hnd IH]; [done|].
  destruct (decide (y = x)) as [->|Hne].
  - rewrite filter_cons_True by done. rewrite decide_True by by left.
    rewrite IH, decide_False; done.
  - rewrite filter_cons_False by done. rewrite IH.
    destruct (decide (x ∈ l)) as [Hx|Hx].
    + rewrite decide_True; [done|by right].
    + rewrite decide_False; [done|]. rewrite elem_of_cons. naive_solver.
Qed.

Lemma range_bind `{Countable K} {V A} (m : gmap K V) (f : A → list K)
    (l : list A) :
  range m (l ≫= f) = l ≫= (λ x, range m (f x)).
Proof.
  induction l as [|x l IH]; [done|].
  by rewrite !bind_cons, range_app, IH.
Qed.

Lemma filter_range `{Countable K} {V} (Q : K → Prop) `{∀ k, Decision (Q k)}
    (m : gmap K V) (ks : list K) :
  filter (λ e, Q e.1) (range m ks) = range m (filter Q ks).
Proof.
  induction ks as [|k ks IH]; [done|].
  change (k :: ks) with ([k] ++ ks).
  rewrite filter_app, !range_app, filter_app, IH. f_equal.
  destruct (decide (Q k)) as [Hk|Hk].
  - rewrite (filter_cons_True Q) by done. unfold range. simpl.
    destruct (m !! k) as [v|]; simpl; [|done].
    by rewrite filter_cons_True.
  - rewrite (filter_cons_False Q) by done. unfold range. simpl.
    destruct (m !! k) as [v|]; simpl; [|done].
    by rewrite filter_cons_False.
Qed.

(** What a map holds at [k] after a sequence of assignments depends on
    the assignments to the keys of any class [P] that [k] is in. *)
Lemma assign_all_filter `{Countable K} {V} (P : K → Prop)
    `{∀ k, Decision (P k)} (l : list (K * V)) (m1 m2 : gmap K V) k :
  P k → m1 !! k = m2 !! k →
  assign_all m1 l !! k = assign_all m2 (filter (λ p, P p.1) l) !! k.
Proof.
  intros Hk. revert m1 m2. induction l as [|[k' v'] l IH]; intros m1 m2 Hm;
    [done|].
  destruct (decide (P k')) as [Hk'|Hk'].
  - rewrite filter_cons_True by done. simpl. apply IH.
    destruct (decide (k' = k)) as [->|Hne].
    + by rewrite !lookup_insert_eq.
    + by rewrite !lookup_insert_ne.
  - rewrite filter_cons_False by done. simpl. apply IH.
    rewrite lookup_insert_ne; [done|]. by intros ->.
Qed.

Lemma NoDup_fst_agree {A B} (l : list (A * B)) a b1 b2 :
  NoDup l.*1 → (a, b1) ∈ l → (a, b2) ∈ l → b1 = b2.
Proof.
  induction l as [|[a' b'] l IH]; intros Hnd H1 H2.
  { by apply elem_of_nil in H1. }
  rewrite fmap_cons in Hnd. apply NoDup_cons in Hnd as [Ha Hnd]. simpl in Ha.
  assert (∀ b, (a', b) ∈ l → False) as Hfresh.
  { intros b Hb. apply Ha, list_elem_of_fmap. by exists (a', b). }
  apply elem_of_cons in H1 as [H1|H1], H2 as [H2|H2].
  - congruence.
  - injection H1 as -> ->. by destruct (Hfresh b2).
  - injection H2 as -> ->. by destruct (Hfresh b1).
  - by apply IH.
Qed.

Lemma lookup_default_empty (ri : RegInvImage) i d :
  default ∅ (ri !! i) !! d = ri !! i ≫= (λ digestTags, digestTags !! d).
Proof. by destruct (ri !! i). Qed.

Section two_ways.
Context (ri : RegInvImage) (o1 : RegInvImageOrder).
Hypothesis Ho1 : RegInvImage_order ri o1.

Lemma riid_lookup id :
  (RegInvImage_ToRegInvImageDigest ri o1) !! id
  = default ∅ (ri !! ImageDigest_ImageName id) !! ImageDigest_Digest id.
Proof.
  destruct id as [i d]. simpl.
  by rewrite RegInvImage_ToRegInvImageDigest_lookup, lookup_default_empty.
Qed.

Lemma range_riid_image i (ds : list Digest) :
  range (RegInvImage_ToRegInvImageDigest ri o1) (mkImageDigest i <$> ds)
  = digest_writes i (range (default ∅ (ri !! i)) ds).
Proof.
  induction ds as [|d ds IH]; [done|].
  rewrite fmap_cons.
  change (mkImageDigest i d :: (mkImageDigest i <$> ds))
    with ([mkImageDigest i d] ++ (mkImageDigest i <$> ds)).
  change (d :: ds) with ([d] ++ ds).
  rewrite !range_app, IH. unfold digest_writes at 2. rewrite fmap_app.
  f_equal. unfold range. simpl. rewrite riid_lookup. simpl.
  by destruct (default ∅ (ri !! i) !! d).
Qed.

Lemma digest_writes_bind_tag i (entries : list (Digest * TagSlice)) :
  digest_writes i entries ≫=
    (λ e, (λ tag, (mkImageTag (ImageDigest_ImageName e.1) tag,
                   ImageDigest_Digest e.1)) <$> e.2)
  = tag_writes i entries.
Proof. unfold digest_writes, tag_writes. by rewrite list_fmap_bind. Qed.

(** *** From an order over the inventory to one over its view *)

Lemma flatten_tag_writes (o : RegInvImageOrder) :
  RegInvImageDigest_tag_writes (RegInvImage_ToRegInvImageDigest ri o1) (RegInvImageOrder_flatten o)
  = RegInvImage_tag_writes ri o.
Proof.
  unfold RegInvImageDigest_tag_writes, RegInvImageOrder_flatten,
    RegInvImage_tag_writes.
  rewrite range_bind, bind_bind. apply list_bind_ext; [|done].
  intros [i ds]. simpl. by rewrite range_riid_image, digest_writes_bind_tag.
Qed.

Lemma elem_of_flatten (o : RegInvImageOrder) id :
  RegInvImage_order ri o →
  id ∈ RegInvImageOrder_flatten o ↔ is_Some ((RegInvImage_ToRegInvImageDigest ri o1) !! id).
Proof.
  intros Ho. unfold RegInvImageOrder_flatten.
  rewrite list_elem_of_bind, riid_lookup. split.
  - intros ([i ds] & Hin & Hp). simpl in *.
    apply list_elem_of_fmap in Hin as (d & -> & Hd). simpl.
    destruct (RegInvImage_order_elem_of _ _ _ _ Ho Hp) as (dt & Hi & Hds).
    rewrite Hi. simpl. by apply (key_order_elem_of dt ds).
  - destruct id as [i d]. simpl. intros Hd.
    destruct (ri !! i) as [dt|] eqn:Hi; simpl in Hd.
    + destruct (RegInvImage_order_visits _ _ _ _ Ho Hi) as (ds & Hp & Hds).
      exists (i, ds). split; [|done]. simpl.
      apply list_elem_of_fmap. exists d. split; [done|].
      by apply (key_order_elem_of dt ds).
    + rewrite lookup_empty in Hd. by destruct Hd.
Qed.

Lemma flatten_order (o : RegInvImageOrder) :
  RegInvImage_order ri o →
  RegInvImageDigest_order (RegInvImage_ToRegInvImageDigest ri o1) (RegInvImageOrder_flatten o).
Proof.
  intros Ho. unfold RegInvImageDigest_order, key_order. fold (keys (RegInvImage_ToRegInvImageDigest ri o1)).
  apply NoDup_Permutation.
  - unfold RegInvImageOrder_flatten. apply NoDup_bind.
    + intros [i1 ds1] [i2 ds2] id H1 H2 Hid1 Hid2. simpl in *.
      apply list_elem_of_fmap in Hid1 as (d1 & -> & _).
      apply list_elem_of_fmap in Hid2 as (d2 & Heq & _). simplify_eq.
      f_equal. apply (NoDup_fst_agree o i2); [|done..].
      destruct Ho as [Hks _]. by apply key_order_NoDup in Hks.
    + intros [i ds] Hp. simpl.
      destruct (RegInvImage_order_elem_of _ _ _ _ Ho Hp) as (dt & _ & Hds).
      apply NoDup_fmap_2_strong; [|by apply key_order_NoDup in Hds].
      intros d1 d2 _ _ Heq. by simplify_eq.
    + destruct Ho as [Hks _]. apply key_order_NoDup in Hks.
      by apply NoDup_fmap_1 in Hks.
  - apply keys_NoDup.
  - intros id. by rewrite elem_of_flatten, elem_of_keys.
Qed.

(** *** From an order over the view to one over the inventory *)

Context (o2 : list ImageDigest).
Hypothesis Ho2 : RegInvImageDigest_order (RegInvImage_ToRegInvImageDigest ri o1) o2.

Lemma group_order : RegInvImage_order ri (RegInvImageOrder_group ri o2).
Proof.
  unfold RegInvImage_order, RegInvImageOrder_group. split.
  - rewrite <-list_fmap_compose. rewrite (list_fmap_ext _ id) by done.
    rewrite list_fmap_id. apply key_order_keys.
  - apply Forall_forall. intros p Hp.
    apply list_elem_of_fmap in Hp as (j & -> & Hj). simpl.
    unfold key_order. apply NoDup_Permutation.
    + apply NoDup_fmap_2_strong.
      * intros [j1 d1] [j2 d2] H1 H2 Heq.
        apply list_elem_of_filter in H1 as [H1 _], H2 as [H2 _].
        simpl in *. by simplify_eq.
      * apply NoDup_filter. by apply key_order_NoDup in Ho2.
    + apply NoDup_fst_map_to_list.
    + intros d. fold (keys (default ∅ (ri !! j))). rewrite elem_of_keys.
      rewrite list_elem_of_fmap. split.
      * intros ([j' d'] & -> & Hin). apply list_elem_of_filter in Hin as [Hn Hin].
        simpl in *. subst j'.
        apply (key_order_elem_of _ _ _ Ho2) in Hin.
        by rewrite riid_lookup in Hin.
      * intros Hd. exists (mkImageDigest j d). split; [done|].
        apply list_elem_of_filter. split; [done|].
        apply (key_order_elem_of _ _ _ Ho2). by rewrite riid_lookup.
Qed.

Lemma filter_image_named (i : ImageName) :
  filter (λ id, ImageDigest_ImageName id = i) o2
  = mkImageDigest i
      <$> (ImageDigest_Digest <$> filter (λ id, ImageDigest_ImageName id = i) o2).
Proof.
  rewrite <-list_fmap_compose.
  assert (Forall (λ id, ImageDigest_ImageName id = i)
            (filter (λ id, ImageDigest_ImageName id = i) o2)) as Hall.
  { apply Forall_forall. intros id Hid. by apply list_elem_of_filter in Hid as [? _]. }
  induction Hall as [|[j d] l Hj _ IH]; [done|].
  simpl in Hj. subst j. rewrite fmap_cons. by f_equal.
Qed.

Lemma view_writes_of_image (i : ImageName) :
  filter (λ p, ImageTag_ImageName p.1 = i) (RegInvImageDigest_tag_writes (RegInvImage_ToRegInvImageDigest ri o1) o2)
  = tag_writes i
      (range (default ∅ (ri !! i))
         (ImageDigest_Digest <$> filter (λ id, ImageDigest_ImageName id = i) o2)).
Proof.
  unfold RegInvImageDigest_tag_writes.
  rewrite (filter_bind_block _ (λ e, ImageDigest_ImageName e.1 = i)).
  - pose proof (filter_range (λ id, ImageDigest_ImageName id = i)
                  (RegInvImage_ToRegInvImageDigest ri o1) o2) as Hfr.
    simpl in Hfr. rewrite Hfr.
    rewrite filter_image_named, range_riid_image.
    by rewrite digest_writes_bind_tag, <-filter_image_named.
  - intros [id ts] _ Hn. apply Forall_forall. intros [it d] Hin.
    apply list_elem_of_fmap in Hin as (t & Heq & _). by simplify_eq.
  - intros [id ts] _ Hn. apply Forall_forall. intros [it d] Hin.
    apply list_elem_of_fmap in Hin as (t & Heq & _). by simplify_eq.
Qed.

Lemma inventory_writes_of_image (i : ImageName) :
  filter (λ p, ImageTag_ImageName p.1 = i)
    (RegInvImage_tag_writes ri (RegInvImageOrder_group ri o2))
  = tag_writes i
      (range (default ∅ (ri !! i))
         (ImageDigest_Digest <$> filter (λ id, ImageDigest_ImageName id = i) o2)).
Proof.
  unfold RegInvImage_tag_writes.
  rewrite (filter_bind_block _ (λ p : ImageName * list Digest, p.1 = i)).
  - unfold RegInvImageOrder_group. rewrite filter_fmap. simpl.
    rewrite (filter_eq_NoDup i (keys ri)) by apply keys_NoDup.
    destruct (decide (i ∈ keys ri)) as [Hi|Hi]; simpl.
    + by rewrite app_nil_r.
    + assert (ri !! i = None) as ->.
      { apply eq_None_not_Some. by rewrite <-elem_of_keys. }
      simpl. by rewrite range_empty.
  - intros [j ds] _ Hn. apply Forall_forall. intros [it d] Hin.
    apply elem_of_tag_writes in Hin as [Hin _]. simpl in *. congruence.
  - intros [j ds] _ Hn. apply Forall_forall. intros [it d] Hin.
    apply elem_of_tag_writes in Hin as [Hin _]. simpl in *. congruence.
Qed.

Lemma group_result :
  RegInvImage_ToRegInvImageTag ri (RegInvImageOrder_group ri o2)
  = RegInvImageDigest_ToRegInvImageTag (RegInvImage_ToRegInvImageDigest ri o1) o2.
Proof.
  apply map_eq. intros it.
  rewrite RegInvImage_ToRegInvImageTag_assign,
    RegInvImageDigest_ToRegInvImageTag_assign.
  rewrite (assign_all_filter
             (λ it', ImageTag_ImageName it' = ImageTag_ImageName it)
             (RegInvImage_tag_writes _ _) ∅ ∅) by done.
  rewrite (assign_all_filter
             (λ it', ImageTag_ImageName it' = ImageTag_ImageName it)
             (RegInvImageDigest_tag_writes _ _) ∅ ∅) by done.
  by rewrite inventory_writes_of_image, view_writes_of_image.
Qed.
End two_ways.

(** X10.  For every [RegInvImage], the maps that converting it to
    [RegInvImageDigest] and that to [RegInvImageTag] can give, over the
    orders in which Go may walk the maps, are exactly the maps that
    [ri.ToRegInvImageTag()] can give. *)
Theorem RegInvImage_two_ways_same_results (ri : RegInvImage)
    (o1 : RegInvImageOrder) (riit : RegInvImageTag) :
  RegInvImage_order ri o1 →
  (∃ o2, RegInvImageDigest_order (RegInvImage_ToRegInvImageDigest ri o1) o2
         ∧ RegInvImageDigest_ToRegInvImageTag
             (RegInvImage_ToRegInvImageDigest ri o1) o2 = riit)
  ↔ (∃ o3, RegInvImage_order ri o3 ∧ RegInvImage_ToRegInvImageTag ri o3 = riit).
Proof.
  intros Ho1. split.
  - intros (o2 & Ho2 & <-). exists (RegInvImageOrder_group ri o2). split.
    + by apply (group_order ri o1).
    + by apply group_result.
  - intros (o3 & Ho3 & <-). exists (RegInvImageOrder_flatten o3). split.
    + by apply flatten_order.
    + rewrite RegInvImageDigest_ToRegInvImageTag_assign,
        RegInvImage_ToRegInvImageTag_assign.
      by rewrite flatten_tag_writes.
Qed.

(** ** The view shares the tag slices of its source *)



Section heap_sharing.
Context (h : Heap.heap) (r : Heap.loc) (f : Heap.loc → TagSlice).
Hypothesis Hr : h !! r = None.

End heap_sharing.





(** ** Tags are namespaced by the image name *)

Lemma filter_fst_NoDup {A B} `{EqDecision A} (l : list (A * B)) a b :
  NoDup l.*1 → (a, b) ∈ l → filter (λ p, p.1 = a) l = [(a, b)].
Proof.
  induction l as [|[a' b'] l IH]; intros Hnd Hin.
  { by apply elem_of_nil in Hin. }
  rewrite fmap_cons in Hnd. apply NoDup_cons in Hnd as [Ha Hnd]. simpl in Ha.
  destruct (decide (a' = a)) as [->|Hne].
  - rewrite filter_cons_True by done.
    assert (b' = b) as ->.
    { apply elem_of_cons in Hin as [Heq|Hin]; [congruence|].
      destruct Ha. apply list_elem_of_fmap. by exists (a, b). }
    f_equal. apply filter_Forall_nil, Forall_forall. intros [a'' b''] Hin' Heq.
    simpl in Heq. subst a''. apply Ha, list_elem_of_fmap. by exists (a, b'').
  - rewrite filter_cons_False by done. apply IH; [done|].
    apply elem_of_cons in Hin as [Heq|Hin]; [congruence|done].
Qed.

Lemma RegInvImage_tag_writes_of_image ri o i ds :
  RegInvImage_order ri o → (i, ds) ∈ o →
  filter (λ p, ImageTag_ImageName p.1 = i) (RegInvImage_tag_writes ri o)
  = tag_writes i (range (default ∅ (ri !! i)) ds).
Proof.
  intros [Hks _] Hin. apply key_order_NoDup in Hks.
  unfold RegInvImage_tag_writes.
  rewrite (filter_bind_block _ (λ p : ImageName * list Digest, p.1 = i)).
  - rewrite (filter_fst_NoDup o i ds) by done. simpl. by rewrite app_nil_r.
  - intros [j ds'] _ Hn. apply Forall_forall. intros [it d] Hit.
    apply elem_of_tag_writes in Hit as [Hit _]. simpl in *. congruence.
  - intros [j ds'] _ Hn. apply Forall_forall. intros [it d] Hit.
    apply elem_of_tag_writes in Hit as [Hit _]. simpl in *. congruence.
Qed.

(** X12.  Tags are namespaced by the image name: what
    [ri.ToRegInvImageTag()] holds at a key of image [i] depends on the
    entry [ri[i]] and on the order in which its digests are walked, and
    on nothing else in the inventory. *)
Theorem RegInvImage_ToRegInvImageTag_namespaced (ri1 ri2 : RegInvImage)
    (o1 o2 : RegInvImageOrder) (i : ImageName) (ds : list Digest) (t : Tag) :
  RegInvImage_order ri1 o1 → RegInvImage_order ri2 o2 →
  ri1 !! i = ri2 !! i →
  (i, ds) ∈ o1 → (i, ds) ∈ o2 →
  RegInvImage_ToRegInvImageTag ri1 o1 !! mkImageTag i t
  = RegInvImage_ToRegInvImageTag ri2 o2 !! mkImageTag i t.
Proof.
  intros Ho1 Ho2 Hi Hin1 Hin2.
  rewrite !RegInvImage_ToRegInvImageTag_assign.
  rewrite (assign_all_filter (λ it', ImageTag_ImageName it' = i)
             (RegInvImage_tag_writes ri1 o1) ∅ ∅) by done.
  rewrite (assign_all_filter (λ it', ImageTag_ImageName it' = i)
             (RegInvImage_tag_writes ri2 o2) ∅ ∅) by done.
  rewrite (RegInvImage_tag_writes_of_image ri1 o1 i ds) by done.
  rewrite (RegInvImage_tag_writes_of_image ri2 o2 i ds) by done.
  by rewrite Hi.
Qed.

(** ** The theorems above at concrete inputs *)

Lemma Manifest_ToRegInvImageTag_spec_witness :
  Manifest_order m_example om_example
  ∧ (is_Some (Manifest_ToRegInvImageTag m_example om_example
                !! mkImageTag "other" "v1")
     ↔ ∃ image d, image ∈ Images m_example
                  ∧ Image_claims image (mkImageTag "other" "v1") d).
Proof.
  assert (Manifest_order m_example om_example) as Ho by by_decide.
  split; [exact Ho|].
  exact (proj1 (Manifest_ToRegInvImageTag_spec m_example om_example
                  (mkImageTag "other" "v1") Ho)).
Defined.

Lemma Manifest_ToRegInvImageTag_later_entry_wins_witness :
  ∃ d, Manifest_ToRegInvImageTag m_override om_override !! mkImageTag "img" "t"
       = Some d
       ∧ Image_claims (mkImage "img" {[ "d2" := ["t"] ]}) (mkImageTag "img" "t") d.
Proof.
  apply (Manifest_ToRegInvImageTag_later_entry_wins m_override om_override
           [mkImage "img" {[ "d1" := ["t"] ]}] []).
  - by_decide.
  - reflexivity.
  - exists "d2". split; [reflexivity|]. exists ["t"].
    split; [vm_compute; reflexivity|by_decide].
  - intros image' d' Hin. by apply elem_of_nil in Hin.
Defined.

Lemma Manifest_ToRegInvImageDigest_later_entry_wins_witness :
  Manifest_ToRegInvImageDigest m_duplicate om_duplicate !! mkImageDigest "img" "d"
  = Some [].
Proof.
  apply (Manifest_ToRegInvImageDigest_later_entry_wins m_duplicate om_duplicate
           [mkImage "img" {[ "d" := ["t"] ]}] [] (mkImage "img" {[ "d" := [] ]})).
  - by_decide.
  - reflexivity.
  - vm_compute. reflexivity.
  - intros image' Hin. by apply elem_of_nil in Hin.
Defined.

Lemma Manifest_ToRegInvImageDigest_order_independent_witness :
  om_example ≠ om_example'
  ∧ Manifest_ToRegInvImageDigest m_example om_example
    = Manifest_ToRegInvImageDigest m_example om_example'.
Proof.
  split; [discriminate|].
  apply Manifest_ToRegInvImageDigest_order_independent; by_decide.
Defined.

Lemma Manifest_round_trip_witness :
  Manifest_names_distinct m_example
  ∧ Manifest_tags_unique m_example
  ∧ RegInvImageDigest_ToRegInvImageTag
      (Manifest_ToRegInvImageDigest m_example om_example)
      (keys (Manifest_ToRegInvImageDigest m_example om_example))
    = Manifest_ToRegInvImageTag m_example om_example'.
Proof.
  assert (Manifest_names_distinct m_example) as Hnd by by_decide.
  assert (Manifest_tags_unique m_example) as Hu by by_decide.
  split_and!; [exact Hnd|exact Hu|].
  apply Manifest_round_trip; [exact Hnd|exact Hu|by_decide..].
Defined.

Lemma RegInvImage_two_ways_same_results_witness :
  ∃ o2, RegInvImageDigest_order
          (RegInvImage_ToRegInvImageDigest ri_conflict o_d1_d2) o2
        ∧ RegInvImageDigest_ToRegInvImageTag
            (RegInvImage_ToRegInvImageDigest ri_conflict o_d1_d2) o2
          = RegInvImage_ToRegInvImageTag ri_conflict o_d2_d1.
Proof.
  apply (RegInvImage_two_ways_same_results ri_conflict o_d1_d2); [by_decide|].
  exists o_d2_d1. split; [by_decide|reflexivity].
Defined.


Lemma RegInvImage_ToRegInvImageTag_namespaced_witness :
  RegInvImage_ToRegInvImageTag ri_example o_example !! mkImageTag "img" "v1"
  = RegInvImage_ToRegInvImageTag ri_two_images o_two_images
      !! mkImageTag "img" "v1".
Proof.
  apply (RegInvImage_ToRegInvImageTag_namespaced ri_example ri_two_images
           o_example o_two_images "img" ["d1"; "d2"] "v1").
  - by_decide.
  - by_decide.
  - vm_compute. reflexivity.
  - by_decide.
  - by_decide.
Defined.

(** ** The digest walked last stays *)

Lemma tag_writes_app i (entries1 entries2 : list (Digest * TagSlice)) :
  tag_writes i (entries1 ++ entries2)
  = tag_writes i entries1 ++ tag_writes i entries2.
Proof. apply bind_app. Qed.

(** X13.  In [ri.ToRegInvImageTag()] the digest walked last stays: when the
    digests of image [i] are walked in the order [before ++ d :: after],
    digest [d] lists tag [t] and no digest of [after] does, the view holds
    [d] at (i, t). *)
Theorem RegInvImage_ToRegInvImageTag_last_walked (ri : RegInvImage)
    (o : RegInvImageOrder) (i : ImageName) (before after : list Digest)
    (d : Digest) (digestTags : DigestTags) (ts : TagSlice) (t : Tag) :
  RegInvImage_order ri o →
  (i, before ++ d :: after) ∈ o →
  ri !! i = Some digestTags →
  digestTags !! d = Some ts → t ∈ ts →
  (∀ d' ts', d' ∈ after → digestTags !! d' = Some ts' → t ∉ ts') →
  RegInvImage_ToRegInvImageTag ri o !! mkImageTag i t = Some d.
Proof.
  intros Ho Hin Hi Hd Ht Hafter.
  rewrite RegInvImage_ToRegInvImageTag_assign.
  rewrite (assign_all_filter (λ it', ImageTag_ImageName it' = i)
             (RegInvImage_tag_writes ri o) ∅ ∅) by done.
  rewrite (RegInvImage_tag_writes_of_image ri o i (before ++ d :: after))
    by done.
  rewrite Hi. simpl.
  change (d :: after) with ([d] ++ after).
  rewrite !range_app, (range_singleton _ _ _ Hd), !tag_writes_app.
  apply assign_all_segment.
  - apply elem_of_tag_writes. split; [done|]. exists ts. split; [by left|done].
  - intros d' Hd'. apply elem_of_tag_writes in Hd' as (_ & ts' & Hin' & _).
    apply list_elem_of_singleton in Hin'. congruence.
  - intros Hk. apply list_elem_of_fmap in Hk as ([it' d'] & Heq & Hk).
    simpl in Heq. subst it'.
    apply elem_of_tag_writes in Hk as (_ & ts' & Hin' & Ht'). simpl in *.
    apply elem_of_range in Hin' as [Hd' Hts'].
    by apply (Hafter d' ts').
Qed.

Lemma RegInvImage_ToRegInvImageTag_last_walked_witness :
  RegInvImage_ToRegInvImageTag ri_conflict o_d2_d1 !! mkImageTag "img" "t"
  = Some "d1".
Proof.
  apply (RegInvImage_ToRegInvImageTag_last_walked ri_conflict o_d2_d1 "img"
           ["d2"] [] "d1" {[ "d1" := ["t"]; "d2" := ["t"] ]} ["t"]).
  - by_decide.
  - by_decide.
  - vm_compute. reflexivity.
  - vm_compute. reflexivity.
  - by_decide.
  - intros d' ts' Hin. by apply elem_of_nil in Hin.
Defined.

(** X14.  In [riid.ToRegInvImageTag()] the entry walked last stays: when
    the keys are walked in the order [before ++ id :: after], the entry at
    [id] lists tag [t] and no entry of [after] for the same image does,
    the view holds [id.Digest] at (id.ImageName, t). *)
Theorem RegInvImageDigest_ToRegInvImageTag_last_walked
    (riid : RegInvImageDigest) (before after : list ImageDigest)
    (id : ImageDigest) (ts : TagSlice) (t : Tag) :
  RegInvImageDigest_order riid (before ++ id :: after) →
  riid !! id = Some ts → t ∈ ts →
  (∀ id' ts', id' ∈ after →
     ImageDigest_ImageName id' = ImageDigest_ImageName id →
     riid !! id' = Some ts' → t ∉ ts') →
  RegInvImageDigest_ToRegInvImageTag riid (before ++ id :: after)
    !! mkImageTag (ImageDigest_ImageName id) t
  = Some (ImageDigest_Digest id).
Proof.
  intros Ho Hid Ht Hafter.
  rewrite RegInvImageDigest_ToRegInvImageTag_assign.
  unfold RegInvImageDigest_tag_writes.
  change (id :: after) with ([id] ++ after).
  rewrite !range_app, (range_singleton _ _ _ Hid), !bind_app.
  apply assign_all_segment.
  - simpl. rewrite app_nil_r. apply list_elem_of_fmap. by exists t.
  - intros d' Hd'. simpl in Hd'. rewrite app_nil_r in Hd'.
    apply list_elem_of_fmap in Hd' as (t' & Heq & _). by simplify_eq.
  - intros Hk. apply list_elem_of_fmap in Hk as ([it' d'] & Heq & Hk).
    simpl in Heq. subst it'.
    apply list_elem_of_bind in Hk as ([id' ts'] & Hin' & He).
    apply list_elem_of_fmap in Hin' as (t' & Heq & Ht'). simpl in *.
    apply elem_of_range in He as [Hid' Hts'].
    injection Heq as Hn -> Hd'.
    by apply (Hafter id' ts').
Qed.

Lemma RegInvImageDigest_ToRegInvImageTag_last_walked_witness :
  RegInvImageDigest_ToRegInvImageTag riid_example
    [mkImageDigest "img" "d2"; mkImageDigest "img" "d1"]
    !! mkImageTag "img" "v2"
  = Some "d1".
Proof.
  apply (RegInvImageDigest_ToRegInvImageTag_last_walked riid_example
           [mkImageDigest "img" "d2"] [] (mkImageDigest "img" "d1")
           ["v1"; "v2"] "v2").
  - by_decide.
  - vm_compute. reflexivity.
  - by_decide.
  - intros id' ts' Hin. by apply elem_of_nil in Hin.
Defined.
